(** * JeVois core: Component tree, Parameters, string marshalling, Serial

    A shallow embedding of the header-only part of the JeVois core
    ([include/jevois/Component/details/ComponentImpl.H],
    [include/jevois/Util/Utils.H], [include/jevois/Core/Serial.H]) and the
    properties of it that the specification states.

    Layout: the embedding first (one module per header), then the proofs
    (one module per header again). *)

From Stdlib Require Import ZArith Ascii String List Bool Lia.
From stdpp Require Import base option list strings.
Import ListNotations.

Local Open Scope Z_scope.
#[local] Set Warnings "-register-all".

(** ** Exceptions and outcomes *)

(** The exceptions the modelled code throws. [std::stoll] throws
    [std::invalid_argument] and [std::out_of_range]; ComponentImpl.H throws
    [std::range_error] with two different messages, kept apart here. *)
Inductive exception : Type :=
| InvalidArgument                       (* std::invalid_argument *)
| OutOfRange                            (* std::out_of_range *)
| IncorrectType (unrolled : string)     (* range_error: "... with value of incorrect type" *)
| MultipleMatches (descriptor : string) (* range_error: "Multiple matches for descriptor ..." *)
| NoParameterNamed (descriptor : string) (* not-found: the descriptor matched nothing *)
| NameClash (instance : string)
| InvalidValue (param : string)
| HookFailed (instance : string)
| BadEnumString (str : string)
| DeviceError.

(** A pure computation that may throw. *)
Inductive outcome (A : Type) : Type :=
| Ok (a : A)
| Throw (e : exception).
Arguments Ok {A} a.
Arguments Throw {A} e.

Definition obind {A B} (m : outcome A) (k : A -> outcome B) : outcome B :=
  match m with
  | Ok a => k a
  | Throw e => Throw e
  end.

(** A computation over a mutable state [S]. C++ exceptions do not undo what
    was written before the throw, so [Throws] carries the state at the throw.
    [Undefined] is undefined behaviour (null dereference, [operator[]] out of
    range): nothing is known of the state afterwards. *)
Inductive result (S A : Type) : Type :=
| Returns (a : A) (s : S)
| Throws (e : exception) (s : S)
| Undefined.
Arguments Returns {S A} a s.
Arguments Throws {S A} e s.
Arguments Undefined {S A}.

(** Rebuilding the state of a [result]. *)
Definition map_state {S S' A} (f : S -> S') (r : result S A) : result S' A :=
  match r with
  | Returns a s => Returns a (f s)
  | Throws e s => Throws e (f s)
  | Undefined => Undefined
  end.

(** ** Utils.H: string marshalling *)

Module Utils.

(** *** std::stoll(str, nullptr, 0) *)

Definition LLONG_MAX : Z := 2 ^ 63 - 1.
Definition LLONG_MIN : Z := - 2 ^ 63.

Definition code (c : ascii) : Z := Z.of_nat (nat_of_ascii c).

(** [isspace] in the C locale: space, \t, \n, \v, \f, \r. *)
Definition isspace (c : ascii) : bool :=
  (code c =? 32) || ((9 <=? code c) && (code c <=? 13)).

Definition digit_value (c : ascii) : option Z :=
  let n := code c in
  if (48 <=? n) && (n <=? 57) then Some (n - 48)
  else if (97 <=? n) && (n <=? 122) then Some (n - 97 + 10)
  else if (65 <=? n) && (n <=? 90) then Some (n - 65 + 10)
  else None.

Definition digit_in_base (base : Z) (c : ascii) : option Z :=
  match digit_value c with
  | Some d => if d <? base then Some d else None
  | None => None
  end.

Fixpoint skip_space (s : list ascii) : list ascii :=
  match s with
  | c :: s' => if isspace c then skip_space s' else s
  | [] => []
  end.

(** Optional sign: [(negative, rest)]. *)
Definition read_sign (s : list ascii) : bool * list ascii :=
  match s with
  | c :: s' =>
      if Ascii.eqb c "-" then (true, s')
      else if Ascii.eqb c "+" then (false, s')
      else (false, s)
  | [] => (false, [])
  end.

(** Base 0: "0x"/"0X" before a hex digit selects 16, a leading "0" selects
    8, anything else 10. *)
Definition detect_base (s : list ascii) : Z * list ascii :=
  match s with
  | z :: x :: h :: r =>
      if Ascii.eqb z "0" then
        if (Ascii.eqb x "x" || Ascii.eqb x "X") && bool_decide (is_Some (digit_in_base 16 h))
        then (16, h :: r)
        else (8, s)
      else (10, s)
  | z :: _ => if Ascii.eqb z "0" then (8, s) else (10, s)
  | [] => (10, [])
  end.

(** The longest run of digits of [base], accumulated from the left; the
    flag says whether a digit was read. Trailing text is ignored, as
    [stoll] does with a null [pos]. *)
Fixpoint parse_digits (base : Z) (s : list ascii) (acc : Z) (any : bool) : Z * bool :=
  match s with
  | c :: s' =>
      match digit_in_base base c with
      | Some d => parse_digits base s' (acc * base + d) true
      | None => (acc, any)
      end
  | [] => (acc, any)
  end.

Definition stoll_chars (s : list ascii) : outcome Z :=
  let '(neg, s1) := read_sign (skip_space s) in
  let '(base, s2) := detect_base s1 in
  let '(v, any) := parse_digits base s2 0 false in
  if negb any then Throw InvalidArgument
  else
    let v := if neg then - v else v in
    if (LLONG_MIN <=? v) && (v <=? LLONG_MAX) then Ok v else Throw OutOfRange.

Definition stoll (str : string) : outcome Z :=
  stoll_chars (list_ascii_of_string str).

(** *** operator<< on the integral types *)

Definition digit_char (d : Z) : ascii := ascii_of_nat (Z.to_nat (48 + d)).

(** Decimal digits of [n >= 0], most significant first; [fuel] bounds the
    number of digits. *)
Fixpoint dec_digits (fuel : nat) (n : Z) : list ascii :=
  match fuel with
  | O => []
  | S f =>
      if n <? 10 then [digit_char n]
      else dec_digits f (n / 10) ++ [digit_char (n mod 10)]
  end.

Definition digits_fuel (n : Z) : nat := S (Z.to_nat (Z.log2 n)).

Definition print_decimal (v : Z) : list ascii :=
  if v <? 0 then "-"%char :: dec_digits (digits_fuel (- v)) (- v)
  else dec_digits (digits_fuel v) v.

(** The built-in integral types ([std::is_integral]). *)
Inductive IntegralType : Type :=
| TBool | TChar | TSChar | TUChar
| TShort | TUShort | TInt | TUInt
| TLong | TULong | TLongLong | TULongLong.

(** What the compiler fixes: the width of [long] (32 on the ARM target, 64
    on an x86-64 host) and the signedness of plain [char]. *)
Record Platform : Type := {
  long_bits : Z;
  char_signed : bool
}.

Definition arm32 : Platform := {| long_bits := 32; char_signed := false |}.
Definition lp64 : Platform := {| long_bits := 64; char_signed := true |}.

Definition is_signed (p : Platform) (T : IntegralType) : bool :=
  match T with
  | TChar => char_signed p
  | TSChar | TShort | TInt | TLong | TLongLong => true
  | TBool | TUChar | TUShort | TUInt | TULong | TULongLong => false
  end.

Definition bits (p : Platform) (T : IntegralType) : Z :=
  match T with
  | TBool => 1
  | TChar | TSChar | TUChar => 8
  | TShort | TUShort => 16
  | TInt | TUInt => 32
  | TLong | TULong => long_bits p
  | TLongLong | TULongLong => 64
  end.

Definition int_min (p : Platform) (T : IntegralType) : Z :=
  if is_signed p T then - 2 ^ (bits p T - 1) else 0.

Definition int_max (p : Platform) (T : IntegralType) : Z :=
  if is_signed p T then 2 ^ (bits p T - 1) - 1 else 2 ^ bits p T - 1.

Definition in_range (p : Platform) (T : IntegralType) (v : Z) : Prop :=
  int_min p T <= v <= int_max p T.

(** [operator<<] writes a character type as the character itself and every
    other integral type as a decimal number ([bool] as 0 or 1). *)
Definition is_char_type (T : IntegralType) : bool :=
  match T with
  | TChar | TSChar | TUChar => true
  | _ => false
  end.

(** Modelled from the spec: the body of [to_string] (details/UtilsImpl.H is
    not among the sources); as its doc comment in Utils.H says, it streams
    the value with the operator of the type. *)
Definition to_string (T : IntegralType) (v : Z) : string :=
  string_of_list_ascii
    (if is_char_type T then [ascii_of_nat (Z.to_nat (v mod 256))]
     else print_decimal v).

(** Modelled from the spec: [clamped_convert], which range-checks a value
    into the target type by clamping. *)
Definition clamped_convert (p : Platform) (T : IntegralType) (x : Z) : Z :=
  Z.max (int_min p T) (Z.min (int_max p T) x).

(** Modelled from the spec: the body of the integral [from_string]; it
    parses with [std::stoll] (base 0) into the widest signed integer and
    range-checks into the target type. *)
Definition from_string (p : Platform) (T : IntegralType) (str : string) : outcome Z :=
  obind (stoll str) (fun x => Ok (clamped_convert p T x)).

(** *** Enums declared with JEVOIS_DEFINE_ENUM_CLASS *)

(** Modelled from the spec: the macro of Types/Enum.H (not among the
    sources) gives an enum its list of values and their names, an
    [operator<<] that writes the name and an [operator>>] that reads one
    whitespace-delimited word and looks the name up. *)
Class JevoisEnum (E : Type) : Type := {
  enum_Values : list E;
  enum_Strings : E -> string
}.

Fixpoint read_word (s : list ascii) : list ascii :=
  match s with
  | c :: s' => if isspace c then [] else c :: read_word s'
  | [] => []
  end.

Definition enum_to_string {E} `{JevoisEnum E} (v : E) : string := enum_Strings v.

Definition enum_from_string {E} `{JevoisEnum E} (str : string) : outcome E :=
  let word := string_of_list_ascii (read_word (skip_space (list_ascii_of_string str))) in
  match List.find (fun v => String.eqb (enum_Strings v) word) enum_Values with
  | Some v => Ok v
  | None => Throw (BadEnumString word)
  end.

End Utils.

(** ** Serial.H: the enums of the serial port *)

Module SerialEnums.

(** JEVOIS_DEFINE_ENUM_CLASS(LineStyle, (LF) (CR) (CRLF) (Zero) (Sloppy)) *)
Inductive LineStyle : Type := LF | CR | CRLF | Zero | Sloppy.

(** JEVOIS_DEFINE_ENUM_CLASS(TerminalMode, (Plain) (VT100)) *)
Inductive TerminalMode : Type := Plain | VT100.

#[export] Instance LineStyle_eq_dec : EqDecision LineStyle.
Proof. solve_decision. Defined.

#[export] Instance TerminalMode_eq_dec : EqDecision TerminalMode.
Proof. solve_decision. Defined.

#[export] Instance LineStyle_enum : Utils.JevoisEnum LineStyle := {|
  Utils.enum_Values := [LF; CR; CRLF; Zero; Sloppy];
  Utils.enum_Strings := fun v =>
    match v with
    | LF => "LF" | CR => "CR" | CRLF => "CRLF" | Zero => "Zero" | Sloppy => "Sloppy"
    end%string
|}.

#[export] Instance TerminalMode_enum : Utils.JevoisEnum TerminalMode := {|
  Utils.enum_Values := [Plain; VT100];
  Utils.enum_Strings := fun v =>
    match v with Plain => "Plain" | VT100 => "VT100" end%string
|}.

End SerialEnums.

(** ** Parameters *)

Module Param.
Import SerialEnums.

(** The static type [T] of a [ParameterCore<T>], as far as the modelled
    components use it. *)
Inductive ParamType : Type :=
| PBool | PInt | PUInt | PString | PLineStyle | PTerminalMode.

(** A value together with its static type. *)
Inductive Value : Type :=
| VBool (b : bool)
| VInt (z : Z)
| VUInt (z : Z)
| VString (s : string)
| VLineStyle (l : LineStyle)
| VTerminalMode (m : TerminalMode).

#[export] Instance ParamType_eq_dec : EqDecision ParamType.
Proof. solve_decision. Defined.

#[export] Instance Value_eq_dec : EqDecision Value.
Proof. solve_decision. Defined.

Definition type_of (v : Value) : ParamType :=
  match v with
  | VBool _ => PBool
  | VInt _ => PInt
  | VUInt _ => PUInt
  | VString _ => PString
  | VLineStyle _ => PLineStyle
  | VTerminalMode _ => PTerminalMode
  end.

(** *** The regular expressions of the declarations

    Only what the declared patterns use: anchors, literal characters and
    bracket expressions. *)
Inductive class_item : Type :=
| One (c : ascii)          (* a listed character *)
| Range (lo hi : ascii).   (* lo-hi *)

Inductive regex_item : Type :=
| Bol                              (* ^ *)
| Eol                              (* $ *)
| Lit (c : ascii)
| Class (items : list class_item). (* [...] *)

Definition regex : Type := list regex_item.

Definition in_class_item (c : ascii) (i : class_item) : bool :=
  match i with
  | One c' => Ascii.eqb c c'
  | Range lo hi => (Utils.code lo <=? Utils.code c) && (Utils.code c <=? Utils.code hi)
  end.

(** [match_here re at_start s]: [re] matches the whole of [s]; [at_start]
    says that [s] begins the input. *)
Fixpoint match_here (re : regex) (at_start : bool) (s : list ascii) : bool :=
  match re with
  | [] => match s with [] => true | _ => false end
  | Bol :: re' => at_start && match_here re' at_start s
  | Eol :: re' => match s with [] => match_here re' at_start s | _ => false end
  | Lit c :: re' =>
      match s with
      | x :: s' => Ascii.eqb x c && match_here re' false s'
      | [] => false
      end
  | Class items :: re' =>
      match s with
      | x :: s' => existsb (in_class_item x) items && match_here re' false s'
      | [] => false
      end
  end.

(** Modelled from the spec: the regex check of a string-valued Parameter
    (its code is in ParameterImpl.H, not among the sources): the value as a
    whole must match the pattern. *)
Definition regex_match (str : string) (re : regex) : bool :=
  match_here re true (list_ascii_of_string str).

(** *** A Parameter *)

Inductive ValidValuesSpec : Type :=
| ValidNone                      (* no constraint *)
| ValidList (vals : list Value)  (* discrete set of values *)
| ValidRegex (re : regex).       (* pattern, for strings *)

Record ParameterCore : Type := mkParameter {
  name : string;
  description : string;
  category : string;
  itsVal : Value;
  itsValidValuesSpec : ValidValuesSpec;
  (* the change callback, if one is registered: false when it rejects *)
  itsCallback : option (Value -> bool)
}.

Definition with_val (v : Value) (p : ParameterCore) : ParameterCore :=
  {| name := name p; description := description p; category := category p;
     itsVal := v; itsValidValuesSpec := itsValidValuesSpec p;
     itsCallback := itsCallback p |}.

Definition checkValueValidity (spec : ValidValuesSpec) (v : Value) : bool :=
  match spec with
  | ValidNone => true
  | ValidList vals => bool_decide (v ∈ vals)
  | ValidRegex re =>
      match v with
      | VString s => regex_match s re
      | _ => false
      end
  end.

(** Modelled from the spec: [ParameterCore<T>::get] returns the current
    value and never fails. *)
Definition get (p : ParameterCore) : Value := itsVal p.

(** Modelled from the spec: [ParameterCore<T>::set] (ParameterImpl.H is not
    among the sources). The constraint is checked, then the callback runs;
    when either rejects, a validation error is raised and the stored value
    stays. *)
Definition set (v : Value) (p : ParameterCore) : result ParameterCore unit :=
  if negb (checkValueValidity (itsValidValuesSpec p) v) then
    Throws (InvalidValue (name p)) p
  else
    match itsCallback p with
    | Some callback =>
        if callback v then Returns tt (with_val v p)
        else Throws (InvalidValue (name p)) p
    | None => Returns tt (with_val v p)
    end.

(** [JEVOIS_DECLARE_PARAMETER]: a declaration is a Parameter holding its
    default value. *)
Definition declare (n : string) (descr : string) (default : Value)
    (spec : ValidValuesSpec) (categ : string) : ParameterCore :=
  {| name := n; description := descr; category := categ; itsVal := default;
     itsValidValuesSpec := spec; itsCallback := None |}.

End Param.

(** ** ComponentImpl.H: the Component tree *)

Module Comp.
Import Param.

Inductive LogEntry : Type :=
| LERROR (msg : string).

(** The virtual hooks of a component class, as far as the tree sees them:
    [true] when the hook returns, [false] when it throws. *)
Record Hooks : Type := {
  preInit : bool;
  postInit : bool
}.

(** A Component with what it owns. [addr] is the identity of the object:
    what [shared_ptr::get()] returns for it. *)
Inductive Component : Type := mkComponent {
  addr : nat;
  itsInstanceName : string;
  itsParent : option nat;
  itsInitialized : bool;
  itsPath : string;
  itsHooks : Hooks;
  itsParameters : list ParameterCore;
  itsSubComponents : list Component
}.

(** A [std::shared_ptr<Comp>]: null, or pointing at a component. *)
Definition shared_ptr : Type := option Component.

Definition ptr_get (p : shared_ptr) : option nat := addr <$> p.

Definition set_subs (subs : list Component) (c : Component) : Component :=
  mkComponent (addr c) (itsInstanceName c) (itsParent c) (itsInitialized c)
    (itsPath c) (itsHooks c) (itsParameters c) subs.

Definition set_params (ps : list ParameterCore) (c : Component) : Component :=
  mkComponent (addr c) (itsInstanceName c) (itsParent c) (itsInitialized c)
    (itsPath c) (itsHooks c) ps (itsSubComponents c).

Definition set_parent (parent : option nat) (c : Component) : Component :=
  mkComponent (addr c) (itsInstanceName c) parent (itsInitialized c)
    (itsPath c) (itsHooks c) (itsParameters c) (itsSubComponents c).

Definition setPath (path : string) (c : Component) : Component :=
  mkComponent (addr c) (itsInstanceName c) (itsParent c) (itsInitialized c)
    path (itsHooks c) (itsParameters c) (itsSubComponents c).

(** *** Lifecycle *)

(** Modelled from the spec: [uninit()] (Component.C is not among the
    sources): the children are uninitialized, then the flag is cleared;
    errors are logged and suppressed, so the call always completes. The log
    output of the hooks is not kept. *)
Fixpoint uninit (c : Component) : Component :=
  match c with
  | mkComponent a n par _ path h ps subs =>
      let fix uninit_subs (l : list Component) : list Component :=
        match l with
        | [] => []
        | x :: l' => let l'' := uninit_subs l' in uninit x :: l''
        end in
      mkComponent a n par false path h ps (uninit_subs subs)
  end.

(** Modelled from the spec: [init()] (Component.C is not among the
    sources): [preInit], then [init()] of every sub-Component in insertion
    order, then [postInit], then the flag is set. When a step fails, the
    children initialized so far are uninitialized again and the failure
    propagates. *)
Fixpoint init (c : Component) : result Component unit :=
  match c with
  | mkComponent a n par ini path h ps subs =>
      if negb (preInit h) then Throws (HookFailed n) c
      else
        let fix init_subs (l : list Component) : result (list Component) unit :=
          match l with
          | [] => Returns tt []
          | x :: l' =>
              match init x with
              | Returns _ x' =>
                  match init_subs l' with
                  | Returns _ l'' => Returns tt (x' :: l'')
                  | Throws e l'' => Throws e (uninit x' :: l'')
                  | Undefined => Undefined
                  end
              | Throws e x' => Throws e (x' :: l')
              | Undefined => Undefined
              end
          end in
        match init_subs subs with
        | Returns _ subs' =>
            if postInit h then Returns tt (mkComponent a n par true path h ps subs')
            else Throws (HookFailed n)
                   (mkComponent a n par false path h ps (List.map uninit subs'))
        | Throws e subs' => Throws e (mkComponent a n par ini path h ps subs')
        | Undefined => Undefined
        end
  end.

(** *** addSubComponent *)

(** The template argument [Comp]: its demangled name, what its constructor
    builds, and what the constructor throws, if it throws, when run with an
    instance name. *)
Record CompClass : Type := {
  demangledName : string;
  classHooks : Hooks;
  classParameters : list ParameterCore;
  classSubComponents : list Component;
  constructorThrows : string -> option exception
}.

(** The object a constructor of [Comp] that returns has built at address
    [a]: the base constructor leaves the component uninitialized, without
    parent and path. *)
Definition constructed (cls : CompClass) (a : nat) (instance : string) : Component :=
  mkComponent a instance None false "" (classHooks cls)
    (classParameters cls) (classSubComponents cls).

(** [new Comp(instance, args...)] at address [a]. The constructor of [Comp]
    is code of the user of the framework and may throw. *)
Definition new_Comp (cls : CompClass) (a : nat) (instance : string)
    : outcome Component :=
  match constructorThrows cls instance with
  | Some e => Throw e
  | None => Ok (constructed cls a instance)
  end.

(** Modelled from the spec: [absolutePath()] (Component.C is not among the
    sources) joins the instance name with the path. *)
Definition absolutePath (c : Component) : string :=
  (itsPath c +:+ "/" +:+ itsInstanceName c)%string.

Section AddSubComponent.

(** The default instance name derived from a class name; the spec only
    says that it is deterministic. *)
Variable defaultInstanceName : string -> string.

(** Modelled from the spec: [computeInstanceName] (Component.C is not among
    the sources) returns the requested name if it is not empty, else the
    default, and throws when a sub-component has the name already. *)
Definition computeInstanceName (instance classname : string) (this : Component)
    : outcome string :=
  let inst := if String.eqb instance "" then defaultInstanceName classname else instance in
  if existsb (fun c => String.eqb (itsInstanceName c) inst) (itsSubComponents this)
  then Throw (NameClash inst)
  else Ok inst.

(** ComponentImpl.H, lines 28-58. [a] is the address [new] returns. *)
Definition addSubComponent (cls : CompClass) (instance : string) (a : nat)
    (this : Component) : result Component shared_ptr :=
  match computeInstanceName instance (demangledName cls) this with
  | Throw e => Throws e this
  | Ok inst =>
      (* subComp.reset(new Comp(...)): nothing is attached yet when it throws *)
      match new_Comp cls a inst with
      | Throw e => Throws e this
      | Ok fresh =>
          (* push_back; itsParent = this; setPath(absolutePath()) *)
          let subComp :=
            setPath (absolutePath this) (set_parent (Some (addr this)) fresh) in
          let subs := itsSubComponents this in
          (* if (itsInitialized) subComp->init(); *)
          if itsInitialized this then
            match init subComp with
            | Returns _ subComp' =>
                Returns (Some subComp') (set_subs (subs ++ [subComp']) this)
            | Throws e subComp' => Throws e (set_subs (subs ++ [subComp']) this)
            | Undefined => Undefined
            end
          else Returns (Some subComp) (set_subs (subs ++ [subComp]) this)
      end
  end.

End AddSubComponent.

(** The child as [addSubComponent] attaches it, before [init()]. *)
Definition attached (cls : CompClass) (a : nat) (inst : string) (parent : Component)
    : Component :=
  setPath (absolutePath parent) (set_parent (Some (addr parent)) (constructed cls a inst)).

(** *** removeSubComponent *)

(** What a call of [removeSubComponent] can change: the component, the
    caller's [shared_ptr] (passed by reference) and the log. *)
Record RemoveState : Type := {
  this : Component;
  component : shared_ptr;
  log : list LogEntry;
  (* the components taken out of the tree, latest last *)
  detached : list Component
}.

(** Modelled from the spec: [doRemoveSubComponent] (Component.C is not
    among the sources) uninitializes the child at [itr] if it is initialized
    and erases it from the list; as the comment at its call says, a
    [shared_ptr] that still points at the child then shows up as dangling. *)
Definition doRemoveSubComponent (itr : nat) (displayname : string) (st : RemoveState)
    : result RemoveState unit :=
  match itsSubComponents (this st) !! itr with
  | None => Undefined
  | Some c =>
      let c' := if itsInitialized c then uninit c else c in
      let dangling := bool_decide (ptr_get (component st) = Some (addr c)) in
      Returns tt
        {| this := set_subs (delete itr (itsSubComponents (this st))) (this st);
           component := component st;
           log := log st ++
                  (if dangling
                   then [LERROR ("additional external shared_ptr reference(s) exist to "
                                 +:+ displayname)%string]
                   else []);
           detached := detached st ++ [c'] |}
  end.

(** ComponentImpl.H, lines 101-123. *)
Definition removeSubComponent (st : RemoveState) : result RemoveState unit :=
  match list_find (fun c => Some (addr c) = ptr_get (component st))
                  (itsSubComponents (this st)) with
  | Some (itr, _) =>
      (* component.reset(); doRemoveSubComponent(itr, uplck, "SubComponent"); *)
      doRemoveSubComponent itr "SubComponent"
        {| this := this st; component := None; log := log st;
           detached := detached st |}
  | None =>
      (* LERROR("SubComponent [" << component->instanceName() << "] not found. Ignored.") *)
      match component st with
      | Some c =>
          Returns tt
            {| this := this st; component := component st;
               log := log st ++
                      [LERROR ("SubComponent [" +:+ itsInstanceName c
                               +:+ "] not found. Ignored.")%string];
               detached := detached st |}
      | None => Undefined
      end
  end.

(** *** Descriptors *)

(** The segments of a descriptor, split at the colons. *)
Fixpoint split_descriptor (s : string) : list string :=
  match s with
  | EmptyString => [EmptyString]
  | String c s' =>
      if Ascii.eqb c ":" then EmptyString :: split_descriptor s'
      else
        match split_descriptor s' with
        | seg :: segs => String c seg :: segs
        | [] => [String c EmptyString]
        end
  end.

(** A leading colon anchors at the current component: its empty segment is
    dropped. *)
Definition segments (descriptor : string) : list string :=
  match split_descriptor descriptor with
  | EmptyString :: ((_ :: _) as rest) => rest
  | segs => segs
  end.

(** A [*] segment matches every name, a literal exactly its own. *)
Definition segment_matches (seg n : string) : bool :=
  String.eqb seg "*" || String.eqb seg n.

Section Walker.

(** What the two callables capture by reference. *)
Context {A : Type}.

(** Visits the selected elements of [l] in order; [act] may change the
    element and the captured state, and a throw ends the visit. *)
Fixpoint act_on_each {X : Type} (selected : X -> bool)
    (act : X -> A -> result (X * A) unit) (l : list X) (acc : A)
    : result (list X * A) unit :=
  match l with
  | [] => Returns tt ([], acc)
  | x :: l' =>
      if selected x then
        match act x acc with
        | Returns _ (x', acc') =>
            map_state (fun '(l'', a) => (x' :: l'', a)) (act_on_each selected act l' acc')
        | Throws e (x', acc') => Throws e (x' :: l', acc')
        | Undefined => Undefined
        end
      else map_state (fun '(l'', a) => (x :: l'', a)) (act_on_each selected act l' acc)
  end.

Variable doit : ParameterCore -> string -> A -> result (ParameterCore * A) unit.

(** Modelled from the spec: the recursive descriptor walk (Component.C is
    not among the sources). The last segment selects Parameters by name,
    the segments before it select sub-Components by instance name; the walk
    is depth-first, in insertion order, and [unrolled] is the descriptor with
    every [*] resolved. *)
Fixpoint walk (segs : list string) (unrolled : string) (c : Component) (acc : A)
    {struct segs} : result (Component * A) unit :=
  match segs with
  | [] => Returns tt (c, acc)
  | seg :: segs' =>
      match segs' with
      | [] =>
          map_state (fun '(ps, a) => (set_params ps c, a))
            (act_on_each (fun p => segment_matches seg (name p))
               (fun p => doit p (unrolled +:+ name p)%string)
               (itsParameters c) acc)
      | _ :: _ =>
          map_state (fun '(subs, a) => (set_subs subs c, a))
            (act_on_each (fun x => segment_matches seg (itsInstanceName x))
               (fun x => walk segs' (unrolled +:+ itsInstanceName x +:+ ":")%string x)
               (itsSubComponents c) acc)
      end
  end.

(** Modelled from the spec: [findParamAndActOnIt] (Component.C is not among
    the sources) visits every match of the descriptor under the invoking
    component, then consults the probe [empty] that its caller passes (the
    callers below pass [ret.empty()]): when the walk has returned and the
    probe says that nothing was collected, the not-found error is raised.
    An exception of the action ends the walk before the probe is asked. *)
Definition findParamAndActOnIt (descriptor : string) (empty : A -> bool)
    (this : Component) (acc : A) : result (Component * A) unit :=
  match walk (segments descriptor) "" this acc with
  | Returns _ (this', acc') =>
      if empty acc' then Throws (NoParameterNamed descriptor) (this', acc')
      else Returns tt (this', acc')
  | Throws e s => Throws e s
  | Undefined => Undefined
  end.

End Walker.

(** The Parameters a descriptor matches under [c], with their resolved
    descriptors, in the order of the walk. *)
Fixpoint matching (segs : list string) (unrolled : string) (c : Component)
    {struct segs} : list (string * ParameterCore) :=
  match segs with
  | [] => []
  | seg :: segs' =>
      match segs' with
      | [] =>
          List.map (fun p => ((unrolled +:+ name p)%string, p))
            (List.filter (fun p => segment_matches seg (name p)) (itsParameters c))
      | _ :: _ =>
          List.flat_map
            (fun x => matching segs' (unrolled +:+ itsInstanceName x +:+ ":")%string x)
            (List.filter (fun x => segment_matches seg (itsInstanceName x))
               (itsSubComponents c))
      end
  end.

Definition matches (descriptor : string) (c : Component) : list (string * ParameterCore) :=
  matching (segments descriptor) "" c.

(** The tree in which every Parameter that [segs] matches under [c] holds
    [v]. *)
Fixpoint set_all (v : Value) (segs : list string) (c : Component) {struct segs}
    : Component :=
  match segs with
  | [] => c
  | seg :: segs' =>
      match segs' with
      | [] =>
          set_params
            (List.map (fun p => if segment_matches seg (name p) then with_val v p else p)
               (itsParameters c)) c
      | _ :: _ =>
          set_subs
            (List.map (fun x => if segment_matches seg (itsInstanceName x)
                                then set_all v segs' x else x)
               (itsSubComponents c)) c
      end
  end.

(** The values that the matched Parameters hold. *)
Definition matched_values (descriptor : string) (c : Component) : list Value :=
  List.map (fun m => Param.get (snd m)) (matches descriptor c).

(** *** Parameter access by descriptor *)

(** A Parameter takes [val]: it has the type of [val], and its constraint
    and its callback let the value pass. *)
Definition accepts (val : Value) (param : ParameterCore) : bool :=
  bool_decide (type_of (itsVal param) = type_of val)
  && checkValueValidity (itsValidValuesSpec param) val
  && match itsCallback param with
     | Some callback => callback val
     | None => true
     end.

(** The callable of [setParamVal<T>]: the [dynamic_cast] to
    [ParameterCore<T>] succeeds when the Parameter has the type of [val]. *)
Definition set_action (val : Value) (param : ParameterCore) (unrolled : string)
    (ret : list string) : result (ParameterCore * list string) unit :=
  if bool_decide (type_of (itsVal param) = type_of val) then
    match Param.set val param with
    | Returns _ param' => Returns tt (param', ret ++ [unrolled])
    | Throws e param' => Throws e (param', ret)
    | Undefined => Undefined
    end
  else Throws (IncorrectType unrolled) (param, ret).

(** ComponentImpl.H, lines 127-148. *)
Definition setParamVal (descriptor : string) (val : Value) (this : Component)
    : result Component (list string) :=
  match findParamAndActOnIt (set_action val) descriptor
          (fun ret => bool_decide (ret = [])) this [] with
  | Returns _ (this', ret) => Returns ret this'
  | Throws e (this', _) => Throws e this'
  | Undefined => Undefined
  end.

(** ComponentImpl.H, lines 151-159. *)
Definition setParamValUnique (descriptor : string) (val : Value) (this : Component)
    : result Component unit :=
  match setParamVal descriptor val this with
  | Returns ret this' =>
      if (1 <? length ret)%nat then Throws (MultipleMatches descriptor) this'
      else Returns tt this'
  | Throws e this' => Throws e this'
  | Undefined => Undefined
  end.

(** The callable of [getParamVal<T>]. *)
Definition get_action (T : ParamType) (param : ParameterCore) (unrolled : string)
    (ret : list (string * Value)) : result (ParameterCore * list (string * Value)) unit :=
  if bool_decide (type_of (itsVal param) = T) then
    Returns tt (param, ret ++ [(unrolled, Param.get param)])
  else Throws (IncorrectType unrolled) (param, ret).

(** ComponentImpl.H, lines 162-182. *)
Definition getParamVal (T : ParamType) (descriptor : string) (this : Component)
    : result Component (list (string * Value)) :=
  match findParamAndActOnIt (get_action T) descriptor
          (fun ret => bool_decide (ret = [])) this [] with
  | Returns _ (this', ret) => Returns ret this'
  | Throws e (this', _) => Throws e this'
  | Undefined => Undefined
  end.

(** ComponentImpl.H, lines 185-194. [ret[0]] on an empty vector is
    undefined behaviour; the function itself does not guard it. *)
Definition getParamValUnique (T : ParamType) (descriptor : string) (this : Component)
    : result Component Value :=
  match getParamVal T descriptor this with
  | Returns ret this' =>
      if (1 <? length ret)%nat then Throws (MultipleMatches descriptor) this'
      else
        match ret !! 0%nat with
        | Some (_, v) => Returns v this'
        | None => Undefined
        end
  | Throws e this' => Throws e this'
  | Undefined => Undefined
  end.

(** What [getParamVal<T>] and [setParamVal<T>] do with one match [m], a
    resolved descriptor with its Parameter: whether the cast to
    [ParameterCore<T>] succeeds, the pair that is read, the match after the
    value was set, and the exception with which the value is refused. *)
Definition has_type (T : ParamType) (m : string * ParameterCore) : bool :=
  bool_decide (type_of (itsVal (snd m)) = T).

Definition read (m : string * ParameterCore) : string * Value :=
  (fst m, Param.get (snd m)).

Definition written (val : Value) (m : string * ParameterCore) : string * ParameterCore :=
  (fst m, with_val val (snd m)).

Definition refusal (val : Value) (m : string * ParameterCore) : exception :=
  if has_type (type_of val) m then InvalidValue (name (snd m))
  else IncorrectType (fst m).

(** The sub-components that are not the object at address [a]. *)
Definition other_than (a : nat) (c : Component) : bool := negb (Nat.eqb (addr c) a).

(** *** getSubComponent *)

(** The two [LFATAL] of [getSubComponent]; [LFATAL] (Log.H) logs the
    message and does not return. *)
Inductive fatal : Type :=
| SubComponentNotFound (instance : string)
    (* "SubComponent [" << instance << "] not found" *)
| SubComponentNotOfType (instance type : string).
    (* "SubComponent [" << instance << "] is not of type [" << type << ']' *)

Inductive lookup : Type :=
| Got (c : Component)
| Fatal (f : fatal).

Section GetSubComponent.

(** The template argument [Comp]: its demangled name, and the objects on
    which [std::dynamic_pointer_cast<Comp>] succeeds. *)
Variable Comp_name : string.
Variable is_Comp : Component -> bool.

(** ComponentImpl.H, lines 61-80: the loop over [itsSubComponents]. *)
Fixpoint getSubComponent_from (instance : string) (subs : list Component) : lookup :=
  match subs with
  | [] => Fatal (SubComponentNotFound instance)
  | c :: subs' =>
      if String.eqb (itsInstanceName c) instance then
        if is_Comp c then Got c
        else Fatal (SubComponentNotOfType instance Comp_name)
      else getSubComponent_from instance subs'
  end.

Definition getSubComponent (instance : string) (this : Component) : lookup :=
  getSubComponent_from instance (itsSubComponents this).

End GetSubComponent.

(** ComponentImpl.H, lines 86-97: the specialization for
    [jevois::Component], without cast. *)
Fixpoint getSubComponent_Component_from (instance : string) (subs : list Component)
    : lookup :=
  match subs with
  | [] => Fatal (SubComponentNotFound instance)
  | c :: subs' =>
      if String.eqb (itsInstanceName c) instance then Got c
      else getSubComponent_Component_from instance subs'
  end.

Definition getSubComponent_Component (instance : string) (this : Component) : lookup :=
  getSubComponent_Component_from instance (itsSubComponents this).

End Comp.

(** ** Serial.H: the serial port *)

Module Serial.
Import SerialEnums Param.

Definition ParamCateg : string := "Serial Port Options".

(** The Parameters of namespace [serial], Serial.H lines 34-70. *)
Definition devname : ParameterCore :=
  declare "devname" "Device file name" (VString "") ValidNone ParamCateg.

Definition baudrate : ParameterCore :=
  declare "baudrate" "Baudrate" (VUInt 115200)
    (ValidList (List.map VUInt
       [110; 300; 600; 1200; 2400; 4800; 9600; 14400; 19200; 38400; 57600; 115200;
        230400; 460800; 921600; 1000000; 1152000; 1500000; 2000000;
        2500000; 3000000; 3500000; 4000000]))
    ParamCateg.

(** boost::regex("^[5-8][NEO][12]$") *)
Definition format_regex : regex :=
  [Bol; Class [Range "5" "8"]; Class [One "N"; One "E"; One "O"];
   Class [One "1"; One "2"]; Eol]%char.

Definition format : ParameterCore :=
  declare "format" "Data format" (VString "8N1") (ValidRegex format_regex) ParamCateg.

Definition flowsoft : ParameterCore :=
  declare "flowsoft" "Use soft (XON/XOFF) flow control" (VBool false) ValidNone ParamCateg.

Definition flowhard : ParameterCore :=
  declare "flowhard" "Use hard (RTS/CTS) flow control" (VBool false) ValidNone ParamCateg.

Definition linestyle : ParameterCore :=
  declare "linestyle" "End of line style" (VLineStyle Sloppy)
    (ValidList (List.map VLineStyle Utils.enum_Values)) ParamCateg.

Definition mode : ParameterCore :=
  declare "mode" "Terminal emulation mode for input" (VTerminalMode Plain)
    (ValidList (List.map VTerminalMode Utils.enum_Values)) ParamCateg.

(** The Parameters a Serial derives from, Serial.H lines 77-78. *)
Definition declared : list ParameterCore :=
  [devname; baudrate; format; flowsoft; flowhard; linestyle; mode].

(** The format strings the specification describes: data bits 5 to 8,
    parity N, E or O, stop bits 1 or 2. *)
Definition is_DPS (s : string) : Prop :=
  exists d p t : ascii,
    s = String d (String p (String t EmptyString)) /\
    In d ["5"; "6"; "7"; "8"]%char /\
    In p ["N"; "E"; "O"]%char /\
    In t ["1"; "2"]%char.

(** The device behind the file descriptor: the bytes it has put on the
    wire, and how the next calls of the OS [write] go: [Some k] takes up to
    [k] of the bytes offered, [None] fails. Past the end of the script a call
    takes all it is offered. *)
Record Device : Type := {
  wire : list ascii;
  script : list (option nat)
}.

(** A Serial object: its Parameters (one per declaration it derives from),
    the partial line and the device. *)
Record SerialPort : Type := {
  p_devname : ParameterCore;
  p_baudrate : ParameterCore;
  p_format : ParameterCore;
  p_flowsoft : ParameterCore;
  p_flowhard : ParameterCore;
  p_linestyle : ParameterCore;
  p_mode : ParameterCore;
  itsPartialString : list ascii;
  itsDev : Device
}.

Definition with_dev (d : Device) (s : SerialPort) : SerialPort :=
  {| p_devname := p_devname s; p_baudrate := p_baudrate s; p_format := p_format s;
     p_flowsoft := p_flowsoft s; p_flowhard := p_flowhard s;
     p_linestyle := p_linestyle s; p_mode := p_mode s;
     itsPartialString := itsPartialString s; itsDev := d |}.

(** [serial::linestyle::get()] *)
Definition linestyle_get (s : SerialPort) : LineStyle :=
  match Param.get (p_linestyle s) with
  | VLineStyle l => l
  | _ => Sloppy
  end.

Definition char_CR : ascii := ascii_of_nat 13.
Definition char_LF : ascii := ascii_of_nat 10.
Definition char_NUL : ascii := ascii_of_nat 0.

(** The terminator written for a line style (the description of
    [serial::linestyle], Serial.H lines 59-63). *)
Definition terminator (l : LineStyle) : list ascii :=
  match l with
  | LF => [char_LF]
  | CR => [char_CR]
  | CRLF => [char_CR; char_LF]
  | Zero => [char_NUL]
  | Sloppy => [char_CR; char_LF]
  end.

(** Modelled from the spec: [Serial::write] (Serial.C is not among the
    sources): a partial write is retried with the rest of the buffer until
    everything is written or the device fails. *)
Fixpoint write (buffer : list ascii) (w : list ascii) (calls : list (option nat))
    : result Device unit :=
  match buffer with
  | [] => Returns tt {| wire := w; script := calls |}
  | _ :: _ =>
      match calls with
      | [] => Returns tt {| wire := w ++ buffer; script := [] |}
      | None :: calls' => Throws DeviceError {| wire := w; script := calls' |}
      | Some k :: calls' =>
          write (drop (Nat.min k (length buffer)) buffer)
                (w ++ take (Nat.min k (length buffer)) buffer) calls'
      end
  end.

(** Modelled from the spec: [Serial::writeString] (Serial.C is not among
    the sources): the terminator of the configured line style is appended to
    the caller's string and the whole buffer is written. *)
Definition writeString (str : string) (s : SerialPort) : result SerialPort unit :=
  let fullstr := list_ascii_of_string str ++ terminator (linestyle_get s) in
  map_state (fun d => with_dev d s)
    (write fullstr (wire (itsDev s)) (script (itsDev s))).

End Serial.

(** ** The trees and the port of the specification's scenarios *)

Module Scenarios.
Import SerialEnums Param Comp Serial.

Definition plainHooks : Hooks := {| preInit := true; postInit := true |}.

Definition log_param : ParameterCore :=
  declare "log" "Log the activity" (VBool true) ValidNone "General".

Definition fps_param : ParameterCore :=
  declare "fps" "Frames per second" (VInt 30) ValidNone "General".

(** A component without children, owned by the object at address 0. *)
Definition leaf (a : nat) (instance : string) (ps : list ParameterCore) : Component :=
  mkComponent a instance (Some 0%nat) false "" plainHooks ps [].

(** Scenario 3: root with [a] and [b], each owning [log = true]. *)
Definition root_a_b : Component :=
  mkComponent 0 "root" None false "" plainHooks []
    [leaf 1 "a" [log_param]; leaf 2 "b" [log_param]].

(** Scenario 1: root with [cam], which owns [fps = 30], and [proc]. *)
Definition root_cam_proc : Component :=
  mkComponent 0 "root" None false "" plainHooks []
    [leaf 1 "cam" [fps_param]; leaf 2 "proc" []].

(** Scenario 6: an initialized root without children. *)
Definition initialized_root : Component :=
  mkComponent 0 "root" None true "" plainHooks [] [].

(** A component class with one Parameter. *)
Definition Camera : CompClass :=
  {| demangledName := "Camera"; classHooks := plainHooks;
     classParameters := [fps_param]; classSubComponents := [];
     constructorThrows := fun _ => None |}.

(** A component class whose [preInit] throws. *)
Definition BrokenCamera : CompClass :=
  {| demangledName := "BrokenCamera";
     classHooks := {| preInit := false; postInit := true |};
     classParameters := [fps_param]; classSubComponents := [];
     constructorThrows := fun _ => None |}.

(** A component class whose constructor throws: a port that cannot open
    its device. *)
Definition AbsentPort : CompClass :=
  {| demangledName := "AbsentPort"; classHooks := plainHooks;
     classParameters := []; classSubComponents := [];
     constructorThrows := fun _ => Some DeviceError |}.

(** Scenario 5: a port as its constructor leaves it, set to CRLF, on a
    device that takes one byte, then none, then the rest. *)
Definition crlf_port : SerialPort :=
  {| p_devname := devname; p_baudrate := baudrate; p_format := format;
     p_flowsoft := flowsoft; p_flowhard := flowhard;
     p_linestyle := with_val (VLineStyle CRLF) linestyle; p_mode := mode;
     itsPartialString := [];
     itsDev := {| wire := []; script := [Some 1%nat; Some 0%nat; Some 5%nat] |} |}.

End Scenarios.

(** * Proofs *)

(** ** Utils.H *)

Module UtilsFacts.
Import Utils SerialEnums.

Lemma small_digit_cases (d : Z) :
  0 <= d < 10 ->
  d = 0 \/ d = 1 \/ d = 2 \/ d = 3 \/ d = 4 \/ d = 5 \/ d = 6 \/ d = 7 \/ d = 8 \/ d = 9.
Proof. lia. Qed.

Ltac each_digit d H :=
  destruct (small_digit_cases d H) as [->|[->|[->|[->|[->|[->|[->|[->|[->| ->]]]]]]]]].

Lemma digit_in_base_10_digit_char (d : Z) :
  0 <= d < 10 -> digit_in_base 10 (digit_char d) = Some d.
Proof. intros H. each_digit d H; reflexivity. Qed.

(** Reading back what [dec_digits] wrote, in front of any text. *)
Lemma parse_dec_digits (fuel : nat) :
  forall n rest acc any,
    (0 < fuel)%nat ->
    0 <= n < 2 ^ Z.of_nat fuel ->
    parse_digits 10 (dec_digits fuel n ++ rest) acc any =
    parse_digits 10 rest (acc * 10 ^ Z.of_nat (length (dec_digits fuel n)) + n) true.
Proof.
  induction fuel as [|f IH]; intros n rest acc any Hfuel Hn.
  - lia.
  - cbn [dec_digits]. destruct (Z.ltb_spec n 10) as [Hlt|Hge].
    + cbn [app parse_digits length].
      rewrite digit_in_base_10_digit_char by lia.
      reflexivity.
    + rewrite <- app_assoc. cbn [app].
      assert (Hq : 0 <= n / 10 < 2 ^ Z.of_nat f).
      { rewrite Nat2Z.inj_succ, Z.pow_succ_r in Hn by lia.
        split; [apply Z.div_pos; lia|].
        apply Z.div_lt_upper_bound; lia. }
      assert (Hf : (0 < f)%nat).
      { destruct f; [|lia]. assert (1 <= n / 10) by (apply Z.div_le_lower_bound; lia).
        simpl in Hq. lia. }
      rewrite (IH _ _ _ _ Hf Hq). cbn [parse_digits].
      assert (Hm : 0 <= n mod 10 < 10) by (apply Z.mod_pos_bound; lia).
      rewrite digit_in_base_10_digit_char by exact Hm.
      f_equal. rewrite length_app. cbn [length].
      rewrite Nat2Z.inj_add, Z.pow_add_r by lia.
      change (10 ^ Z.of_nat 1) with 10.
      pose proof (Z.div_mod n 10 ltac:(lia)). lia.
Qed.

(** A positive number is written with a leading digit 1..9. *)
Lemma dec_digits_head (fuel : nat) :
  forall n, 0 < n < 2 ^ Z.of_nat fuel ->
    exists d l, 1 <= d < 10 /\ dec_digits fuel n = digit_char d :: l.
Proof.
  induction fuel as [|f IH]; intros n Hn.
  - simpl in Hn. lia.
  - cbn [dec_digits]. destruct (Z.ltb_spec n 10) as [Hlt|Hge].
    + exists n, []. split; [lia|reflexivity].
    + assert (Hq : 0 < n / 10 < 2 ^ Z.of_nat f).
      { rewrite Nat2Z.inj_succ, Z.pow_succ_r in Hn by lia.
        split; [apply Z.div_str_pos; lia|].
        apply Z.div_lt_upper_bound; lia. }
      destruct (IH _ Hq) as (d & l & Hd & ->).
      exists d, (l ++ [digit_char (n mod 10)]). split; [exact Hd|reflexivity].
Qed.

Lemma digits_fuel_enough (n : Z) : 0 < n -> n < 2 ^ Z.of_nat (digits_fuel n).
Proof.
  intros Hn. unfold digits_fuel.
  rewrite Nat2Z.inj_succ, Z2Nat.id by apply Z.log2_nonneg.
  apply Z.log2_spec. exact Hn.
Qed.

(** A leading digit 1..9 is neither blank nor a sign, and selects base 10. *)
Lemma nonzero_digit_prefix (d : Z) (l : list ascii) :
  1 <= d < 10 ->
  skip_space (digit_char d :: l) = digit_char d :: l /\
  read_sign (digit_char d :: l) = (false, digit_char d :: l) /\
  detect_base (digit_char d :: l) = (10, digit_char d :: l).
Proof.
  intros H. assert (H' : 0 <= d < 10) by lia.
  each_digit d H'; try lia; repeat split; try reflexivity;
    destruct l as [|x [|h r]]; reflexivity.
Qed.

(** [stoll] of the decimal digits of a positive number. *)
Lemma stoll_chars_positive (n : Z) :
  0 < n ->
  stoll_chars (dec_digits (digits_fuel n) n) =
    if n <=? LLONG_MAX then Ok n else Throw OutOfRange.
Proof.
  intros Hn. pose proof (digits_fuel_enough n Hn) as Hf.
  destruct (dec_digits_head _ n (conj Hn Hf)) as (d & l & Hd & E).
  destruct (nonzero_digit_prefix d l Hd) as (Hs & Hg & Hb).
  unfold stoll_chars. rewrite E, Hs, Hg, Hb, <- E.
  rewrite <- (app_nil_r (dec_digits _ n)).
  rewrite parse_dec_digits; [|unfold digits_fuel; lia|lia]. cbn [parse_digits negb].
  replace (0 * _ + n) with n by lia.
  replace (LLONG_MIN <=? n) with true; [reflexivity|].
  symmetry. apply Z.leb_le. unfold LLONG_MIN. lia.
Qed.

Lemma stoll_chars_negative (n : Z) :
  0 < n ->
  stoll_chars ("-"%char :: dec_digits (digits_fuel n) n) =
    if LLONG_MIN <=? - n then Ok (- n) else Throw OutOfRange.
Proof.
  intros Hn. pose proof (digits_fuel_enough n Hn) as Hf.
  destruct (dec_digits_head _ n (conj Hn Hf)) as (d & l & Hd & E).
  destruct (nonzero_digit_prefix d l Hd) as (Hs & Hg & Hb).
  unfold stoll_chars.
  change (skip_space ("-"%char :: ?x)) with ("-"%char :: x).
  change (read_sign ("-"%char :: ?x)) with (true, x).
  rewrite E, Hb, <- E.
  rewrite <- (app_nil_r (dec_digits _ n)).
  rewrite parse_dec_digits; [|unfold digits_fuel; lia|lia]. cbn [parse_digits negb].
  replace (0 * _ + n) with n by lia.
  replace (- n <=? LLONG_MAX) with true; [now rewrite andb_true_r|].
  symmetry. apply Z.leb_le. unfold LLONG_MAX. lia.
Qed.

(** [stoll] reads back every decimal rendering, up to its range check. *)
Lemma stoll_print_decimal (v : Z) :
  stoll_chars (print_decimal v) =
    if (LLONG_MIN <=? v) && (v <=? LLONG_MAX) then Ok v else Throw OutOfRange.
Proof.
  unfold print_decimal. destruct (Z.ltb_spec v 0) as [Hneg|Hpos].
  - rewrite stoll_chars_negative by lia. rewrite Z.opp_involutive.
    replace (v <=? LLONG_MAX) with true; [now rewrite andb_true_r|].
    symmetry. apply Z.leb_le. unfold LLONG_MAX. lia.
  - destruct (Z.eq_dec v 0) as [->|Hnz]; [reflexivity|].
    rewrite stoll_chars_positive by lia.
    replace (LLONG_MIN <=? v) with true; [reflexivity|].
    symmetry. apply Z.leb_le. unfold LLONG_MIN. lia.
Qed.

Lemma clamped_convert_in_range (p : Platform) (T : IntegralType) (v : Z) :
  in_range p T v -> clamped_convert p T v = v.
Proof. unfold in_range, clamped_convert. lia. Qed.

(** On the usual platforms every integral type but the unsigned 64-bit
    ones lies within [long long]. *)
Lemma narrow_types_within_long_long (p : Platform) (T : IntegralType) (v : Z) :
  long_bits p = 32 \/ long_bits p = 64 ->
  T <> TULongLong -> (T = TULong -> long_bits p = 32) ->
  in_range p T v -> LLONG_MIN <= v <= LLONG_MAX.
Proof.
  intros Hl Hull Hul. unfold in_range, int_min, int_max, LLONG_MIN, LLONG_MAX.
  destruct T; cbn [is_signed bits]; try congruence;
    try (destruct (char_signed p));
    try (rewrite Hul by reflexivity);
    try (destruct Hl as [-> | ->]);
    cbn; lia.
Qed.

(** Where the round trip holds: for every integral type that streams as a
    number (all but the character types) and every value of it that
    [long long] holds, and, with the enum operators as modelled above, for
    every value of the two declared enums, [from_string] reads back what
    [to_string] wrote. *)
Theorem from_string_to_string_roundtrip :
  (forall (p : Platform) (T : IntegralType) (v : Z),
      is_char_type T = false ->
      in_range p T v ->
      LLONG_MIN <= v <= LLONG_MAX ->
      from_string p T (to_string T v) = Ok v)
  /\ (forall l : LineStyle, enum_from_string (enum_to_string l) = Ok l)
  /\ (forall m : TerminalMode, enum_from_string (enum_to_string m) = Ok m).
Proof.
  split; [|split].
  - intros p T v Hchar Hrange Hll.
    unfold from_string, to_string, stoll. rewrite Hchar.
    rewrite list_ascii_of_string_of_list_ascii, stoll_print_decimal.
    replace ((LLONG_MIN <=? v) && (v <=? LLONG_MAX)) with true.
    + cbn [obind]. now rewrite clamped_convert_in_range.
    + symmetry. apply andb_true_intro. split; apply Z.leb_le; lia.
  - intros l. destruct l; reflexivity.
  - intros m. destruct m; reflexivity.
Qed.

(** The round trip on a negative [int], the largest [long long] and an
    enum value. *)
Lemma from_string_to_string_roundtrip_witness :
  from_string arm32 TInt (to_string TInt (-120)) = Ok (-120)
  /\ from_string lp64 TLongLong (to_string TLongLong LLONG_MAX) = Ok LLONG_MAX
  /\ enum_from_string (enum_to_string CRLF) = Ok CRLF.
Proof.
  split; [|split].
  - apply (proj1 from_string_to_string_roundtrip arm32 TInt (-120)).
    + reflexivity.
    + unfold in_range. vm_compute. split; discriminate.
    + vm_compute. split; discriminate.
  - apply (proj1 from_string_to_string_roundtrip lp64 TLongLong LLONG_MAX).
    + reflexivity.
    + unfold in_range. vm_compute. split; discriminate.
    + vm_compute. split; discriminate.
  - apply (proj1 (proj2 from_string_to_string_roundtrip)).
Defined.

(** No value above [LLONG_MAX] is read back: [std::stoll] throws on the
    decimal form of each. *)
Lemma from_string_above_LLONG_MAX (p : Platform) (T : IntegralType) (v : Z) :
  is_char_type T = false ->
  LLONG_MAX < v ->
  from_string p T (to_string T v) = Throw OutOfRange.
Proof.
  intros Hchar Hv. unfold from_string, to_string, stoll. rewrite Hchar.
  rewrite list_ascii_of_string_of_list_ascii, stoll_print_decimal.
  replace (v <=? LLONG_MAX) with false; [now rewrite andb_false_r|].
  symmetry. apply Z.leb_gt. exact Hv.
Qed.

(** What [std::stoll] makes of a single character: a digit gives its value,
    anything else is no number. *)
Lemma stoll_single_char (c : ascii) :
  match stoll_chars [c] with
  | Ok d => 0 <= d <= 9 /\ code c = 48 + d
  | Throw _ => True
  end.
Proof.
  destruct c as [[] [] [] [] [] [] [] []]; vm_compute; try exact I;
    split; try split; congruence.
Qed.

(** No value of a character type is read back: it is written as the
    character itself, which [from_string] then reads as a number. *)
Lemma char_types_never_roundtrip (p : Platform) (T : IntegralType) (v : Z) :
  is_char_type T = true ->
  -128 <= v <= 255 ->
  from_string p T (to_string T v) <> Ok v.
Proof.
  intros Hchar Hv. unfold from_string, to_string, stoll. rewrite Hchar.
  rewrite list_ascii_of_string_of_list_ascii.
  pose proof (stoll_single_char (ascii_of_nat (Z.to_nat (v mod 256)))) as H.
  destruct (stoll_chars [ascii_of_nat (Z.to_nat (v mod 256))]) as [d|e];
    [|discriminate].
  destruct H as (Hd & Hc). cbn [obind]. intros [= E].
  unfold code in Hc. rewrite nat_ascii_embedding in Hc.
  - rewrite Z2Nat.id in Hc by (apply Z.mod_pos_bound; lia).
    assert (Hclamp : clamped_convert p T d = d).
    { unfold clamped_convert, int_min, int_max.
      destruct T; try discriminate; cbn [is_signed bits];
        try (destruct (char_signed p)); cbn; lia. }
    rewrite Hclamp in E. subst d.
    pose proof (Z.mod_pos_bound v 256 ltac:(lia)).
    assert (v mod 256 = v) by (apply Z.mod_small; lia). lia.
  - pose proof (Z.mod_pos_bound v 256 ltac:(lia)). lia.
Qed.


End UtilsFacts.

(** ** Serial.H *)

Module SerialFacts.
Import SerialEnums Param Serial Scenarios.

Lemma In_existsb_eqb (x : ascii) (l : list ascii) :
  In x l <-> existsb (Ascii.eqb x) l = true.
Proof.
  rewrite existsb_exists. split.
  - intros H. exists x. split; [exact H|apply Ascii.eqb_refl].
  - intros (y & Hy & E). apply Ascii.eqb_eq in E. now subst.
Qed.

Ltac each_ascii x :=
  destruct x as [[] [] [] [] [] [] [] []]; reflexivity.

Lemma class_data_bits (x : ascii) :
  existsb (in_class_item x) [Range "5" "8"] = existsb (Ascii.eqb x) ["5"; "6"; "7"; "8"]%char.
Proof. each_ascii x. Qed.

Lemma class_parity (x : ascii) :
  existsb (in_class_item x) [One "N"; One "E"; One "O"] =
  existsb (Ascii.eqb x) ["N"; "E"; "O"]%char.
Proof. each_ascii x. Qed.

Lemma class_stop_bits (x : ascii) :
  existsb (in_class_item x) [One "1"; One "2"] = existsb (Ascii.eqb x) ["1"; "2"]%char.
Proof. each_ascii x. Qed.

(** The pattern of [format] matches exactly the strings D P S. *)
Lemma format_regex_spec (s : string) :
  regex_match s format_regex = true <-> is_DPS s.
Proof.
  unfold regex_match, format_regex, is_DPS. split.
  - destruct s as [|d [|p [|t [|x r]]]]; cbn; try discriminate.
    + rewrite andb_false_r. discriminate.
    + rewrite !andb_false_r. discriminate.
    + change (existsb (in_class_item d) [Range "5" "8"]
              && (existsb (in_class_item p) [One "N"; One "E"; One "O"]
                  && (existsb (in_class_item t) [One "1"; One "2"] && true)) = true
              -> exists d0 p0 t0 : ascii,
                  String d (String p (String t "")) = String d0 (String p0 (String t0 ""))
                  /\ In d0 ["5"; "6"; "7"; "8"]%char
                  /\ In p0 ["N"; "E"; "O"]%char /\ In t0 ["1"; "2"]%char).
      rewrite class_data_bits, class_parity, class_stop_bits, andb_true_r.
      intros H. apply andb_prop in H as [Hd H]. apply andb_prop in H as [Hp Ht].
      exists d, p, t. rewrite !In_existsb_eqb. auto.
    + rewrite !andb_false_r. discriminate.
  - intros (d & p & t & -> & Hd & Hp & Ht).
    apply In_existsb_eqb in Hd, Hp, Ht.
    change (existsb (in_class_item d) [Range "5" "8"]
            && (existsb (in_class_item p) [One "N"; One "E"; One "O"]
                && (existsb (in_class_item t) [One "1"; One "2"] && true)) = true).
    rewrite class_data_bits, class_parity, class_stop_bits, Hd, Hp, Ht. reflexivity.
Qed.

(** C8: whatever [format] holds, setting it to a string D P S stores the
    string, and setting it to any other string raises the validation error
    and leaves the stored value. *)
Theorem format_set_exactly_DPS (current : Value) (s : string) :
  (is_DPS s /\
   Param.set (VString s) (with_val current format) =
     Returns tt (with_val (VString s) format))
  \/
  (~ is_DPS s /\
   Param.set (VString s) (with_val current format) =
     Throws (InvalidValue "format") (with_val current format)).
Proof.
  unfold Param.set. cbn [itsValidValuesSpec with_val format declare checkValueValidity
                         itsCallback name].
  destruct (regex_match s format_regex) eqn:E.
  - left. split; [now apply format_regex_spec|reflexivity].
  - right. split; [|reflexivity].
    intros H. apply format_regex_spec in H. congruence.
Qed.

(** Writing to a device that does not fail puts the whole buffer on the
    wire, however the writes are cut. *)
Lemma write_all (calls : list (option nat)) :
  forall buffer w,
    Forall (fun call => call <> None) calls ->
    exists calls',
      write buffer w calls = Returns tt {| wire := w ++ buffer; script := calls' |}.
Proof.
  induction calls as [|call calls IH]; intros buffer w Hok.
  - destruct buffer; cbn [write]; [rewrite app_nil_r|]; eauto.
  - destruct buffer as [|b buffer]; cbn [write].
    + rewrite app_nil_r. eauto.
    + inversion Hok as [|? ? Hcall Hrest]; subst.
      destruct call as [k|]; [|congruence].
      destruct (IH (drop (Nat.min k (length (b :: buffer))) (b :: buffer))
                   (w ++ take (Nat.min k (length (b :: buffer))) (b :: buffer)) Hrest)
        as (calls' & E).
      exists calls'. rewrite E, <- app_assoc, take_drop. reflexivity.
Qed.

(** C9: with line style CRLF and a device that does not fail,
    [writeString] returns, and the wire has gained exactly the bytes of the
    string followed by \r and \n; nothing else of the port changes. *)
Theorem writeString_CRLF (port : SerialPort) (str : string) :
  linestyle_get port = CRLF ->
  Forall (fun call => call <> None) (script (itsDev port)) ->
  exists calls',
    writeString str port =
      Returns tt
        (with_dev {| wire := wire (itsDev port) ++ list_ascii_of_string str
                               ++ [char_CR; char_LF];
                     script := calls' |} port).
Proof.
  intros Hstyle Hok. unfold writeString. rewrite Hstyle. cbn [terminator].
  destruct (write_all _ (list_ascii_of_string str ++ [char_CR; char_LF])
              (wire (itsDev port)) Hok) as (calls' & E).
  exists calls'. rewrite E. reflexivity.
Qed.

(** [writeString("ok")] emits o, k, \r, \n. *)
Lemma writeString_CRLF_witness :
  exists calls',
    writeString "ok" crlf_port =
      Returns tt
        (with_dev {| wire := ["o"; "k"; char_CR; char_LF]%char; script := calls' |}
           crlf_port).
Proof.
  apply (writeString_CRLF crlf_port "ok").
  - reflexivity.
  - repeat constructor; discriminate.
Defined.

End SerialFacts.

(** ** ComponentImpl.H *)

Module CompFacts.
Import Param Comp Scenarios.

(** *** Records rebuilt from their own fields *)

Lemma set_params_same (c : Component) : set_params (itsParameters c) c = c.
Proof. destruct c; reflexivity. Qed.

Lemma set_subs_same (c : Component) : set_subs (itsSubComponents c) c = c.
Proof. destruct c; reflexivity. Qed.

Lemma name_with_val (v : Value) (p : ParameterCore) : name (with_val v p) = name p.
Proof. reflexivity. Qed.

(** *** The walk *)

Section ActOnEach.
Context {A X : Type}.
Variable selected : X -> bool.
Variable act : X -> A -> result (X * A) unit.

(** A visit whose action changes nothing changes nothing. *)
Lemma act_on_each_unchanged (l : list X) (acc : A) :
  (forall x, In x l -> selected x = true -> act x acc = Returns tt (x, acc)) ->
  act_on_each selected act l acc = Returns tt (l, acc).
Proof.
  induction l as [|x l IH]; intros H; cbn [act_on_each]; [reflexivity|].
  assert (Hl : act_on_each selected act l acc = Returns tt (l, acc))
    by (apply IH; intros y Hy; apply H; now right).
  destruct (selected x) eqn:E.
  - rewrite (H x (or_introl eq_refl) E), Hl. reflexivity.
  - rewrite Hl. reflexivity.
Qed.

(** A visit whose action succeeds on every selected element: each of them
    is replaced and the captured list grows by what the elements add. *)
Lemma act_on_each_all {B : Type} (f : X -> X) (g : X -> list B)
    (act' : X -> list B -> result (X * list B) unit) (l : list X) :
  forall acc,
    (forall x, In x l -> selected x = true ->
       forall acc', act' x acc' = Returns tt (f x, acc' ++ g x)) ->
    act_on_each selected act' l acc =
      Returns tt (List.map (fun x => if selected x then f x else x) l,
                  acc ++ List.flat_map g (List.filter selected l)).
Proof.
  induction l as [|x l IH]; intros acc H; cbn [act_on_each List.map List.filter].
  - cbn. now rewrite app_nil_r.
  - destruct (selected x) eqn:E.
    + rewrite (H x (or_introl eq_refl) E).
      rewrite IH by (intros y Hy; apply H; now right).
      cbn [map_state List.flat_map]. now rewrite app_assoc.
    + rewrite IH by (intros y Hy; apply H; now right). reflexivity.
Qed.

End ActOnEach.

Lemma flat_map_nil_inv {X Y : Type} (f : X -> list Y) (l : list X) :
  List.flat_map f l = [] -> forall x, In x l -> f x = [].
Proof.
  induction l as [|y l IH]; cbn; intros H x Hx; [contradiction|].
  apply app_eq_nil in H as [Hy Hl]. destruct Hx as [->|Hx]; auto.
Qed.

Lemma filter_nil_inv {X : Type} (sel : X -> bool) (l : list X) :
  List.filter sel l = [] -> forall x, In x l -> sel x = false.
Proof.
  intros H x Hx. destruct (sel x) eqn:E; [|reflexivity].
  assert (Hin : In x (List.filter sel l)) by (apply filter_In; auto).
  rewrite H in Hin. contradiction.
Qed.

(** Under a descriptor that matches nothing the walk leaves the tree and
    the captured state as they are, whatever the action. *)
Lemma walk_no_match {A : Type}
    (doit : ParameterCore -> string -> A -> result (ParameterCore * A) unit)
    (segs : list string) :
  forall unrolled c acc,
    matching segs unrolled c = [] ->
    walk doit segs unrolled c acc = Returns tt (c, acc).
Proof.
  induction segs as [|seg segs IH]; intros unrolled c acc H; [reflexivity|].
  cbn [walk matching] in *. destruct segs as [|seg' segs].
  - apply map_eq_nil in H.
    rewrite act_on_each_unchanged.
    + cbn [map_state]. now rewrite set_params_same.
    + intros p Hp Hsel. rewrite (filter_nil_inv _ _ H p Hp) in Hsel. discriminate.
  - rewrite act_on_each_unchanged.
    + cbn [map_state]. now rewrite set_subs_same.
    + intros x Hx Hsel. apply IH.
      apply (flat_map_nil_inv _ _ H). apply filter_In. auto.
Qed.




(** *** setParamVal on Parameters that take the value *)

Lemma set_action_accepts (v : Value) (p : ParameterCore) :
  accepts v p = true ->
  forall unrolled ret,
    set_action v p unrolled ret = Returns tt (with_val v p, ret ++ [unrolled]).
Proof.
  unfold accepts, set_action, Param.set. intros H unrolled ret.
  apply andb_prop in H as [H Hcb]. apply andb_prop in H as [Hty Hvalid].
  rewrite Hty, Hvalid. cbn [negb].
  destruct (itsCallback p) as [callback|]; [rewrite Hcb|]; reflexivity.
Qed.

Lemma flat_map_singleton {X Y : Type} (f : X -> Y) (l : list X) :
  List.flat_map (fun x => [f x]) l = List.map f l.
Proof. induction l as [|x l IH]; cbn; congruence. Qed.

Lemma map_flat_map {X Y Z : Type} (h : Y -> Z) (f : X -> list Y) (l : list X) :
  List.map h (List.flat_map f l) = List.flat_map (fun x => List.map h (f x)) l.
Proof.
  induction l as [|x l IH]; cbn; [reflexivity|].
  now rewrite List.map_app, IH.
Qed.

Lemma set_all_instanceName (v : Value) (segs : list string) (c : Component) :
  itsInstanceName (set_all v segs c) = itsInstanceName c.
Proof. destruct segs as [|seg [|seg' segs]]; reflexivity. Qed.

(** When every matched Parameter takes the value, the walk of
    [setParamVal] sets them all and collects their descriptors. *)
Lemma walk_set_all (v : Value) (segs : list string) :
  forall unrolled c ret,
    (forall m, In m (matching segs unrolled c) -> accepts v (snd m) = true) ->
    walk (set_action v) segs unrolled c ret =
      Returns tt (set_all v segs c, ret ++ List.map fst (matching segs unrolled c)).
Proof.
  induction segs as [|seg segs IH]; intros unrolled c ret H.
  - cbn. now rewrite app_nil_r.
  - cbn [walk matching set_all] in *. destruct segs as [|seg' segs].
    + rewrite (act_on_each_all _ (with_val v) (fun p => [unrolled +:+ name p]%string)).
      * cbn [map_state]. rewrite flat_map_singleton, List.map_map. reflexivity.
      * intros p Hp Hsel acc'. apply set_action_accepts.
        apply (H ((unrolled +:+ name p)%string, p)).
        apply in_map_iff. exists p. split; [reflexivity|]. apply filter_In. auto.
    + rewrite (act_on_each_all _ (set_all v (seg' :: segs))
                 (fun x => List.map fst
                    (matching (seg' :: segs)
                       (unrolled +:+ itsInstanceName x +:+ ":")%string x))).
      * cbn [map_state]. now rewrite map_flat_map.
      * intros x Hx Hsel acc'. apply IH. intros m Hm. apply H.
        apply in_flat_map. exists x. split; [|exact Hm]. apply filter_In. auto.
Qed.

(** In the tree that [set_all] builds, the descriptor matches the same
    Parameters, and each of them holds the value. *)
Lemma matching_set_all (v : Value) (segs : list string) :
  forall unrolled c,
    matching segs unrolled (set_all v segs c) =
      List.map (fun m => (fst m, with_val v (snd m))) (matching segs unrolled c).
Proof.
  induction segs as [|seg segs IH]; intros unrolled c; [reflexivity|].
  cbn [matching set_all]. destruct segs as [|seg' segs].
  - destruct c as [a n par ini path h ps subs]. cbn [itsParameters set_params].
    induction ps as [|p ps IHps]; [reflexivity|].
    cbn [List.map List.filter].
    destruct (segment_matches seg (name p)) eqn:E.
    + rewrite name_with_val, E. cbn [List.map fst snd]. now rewrite IHps.
    + rewrite E. exact IHps.
  - destruct c as [a n par ini path h ps subs]. cbn [itsSubComponents set_subs].
    induction subs as [|x subs IHsubs]; [reflexivity|].
    cbn [List.map List.filter].
    destruct (segment_matches seg (itsInstanceName x)) eqn:E.
    + rewrite set_all_instanceName, E. cbn [List.flat_map].
      rewrite set_all_instanceName, List.map_app, IH, IHsubs. reflexivity.
    + rewrite E. exact IHsubs.
Qed.

(** C1, as amended: when a descriptor matches more than one Parameter and
    each of them takes the value, [setParamValUnique] raises the
    multiple-match error after every matched Parameter has been set: in the
    tree it leaves, the descriptor matches the same Parameters and each holds
    the new value. *)
Theorem setParamValUnique_multiple_sets_all
    (descriptor : string) (val : Value) (c : Component) :
  (forall m, In m (matches descriptor c) -> accepts val (snd m) = true) ->
  (1 < length (matches descriptor c))%nat ->
  exists c',
    setParamValUnique descriptor val c = Throws (MultipleMatches descriptor) c'
    /\ matches descriptor c' =
         List.map (fun m => (fst m, with_val val (snd m))) (matches descriptor c)
    /\ matched_values descriptor c' =
         List.map (fun _ => val) (matches descriptor c).
Proof.
  intros Hacc Hmany. exists (set_all val (segments descriptor) c).
  assert (Hm : matches descriptor (set_all val (segments descriptor) c) =
               List.map (fun m => (fst m, with_val val (snd m))) (matches descriptor c))
    by apply matching_set_all.
  split; [|split].
  - unfold setParamValUnique, setParamVal, findParamAndActOnIt.
    rewrite walk_set_all by exact Hacc. cbn [app].
    fold (matches descriptor c).
    destruct (matches descriptor c) as [|m ms]; [cbn in Hmany; lia|].
    cbn [List.map]. rewrite bool_decide_eq_false_2 by discriminate.
    cbn [length]. rewrite length_map.
    destruct (Nat.ltb_spec 1 (S (length ms))); [reflexivity|].
    cbn [length] in Hmany. lia.
  - exact Hm.
  - unfold matched_values. rewrite Hm, List.map_map. reflexivity.
Qed.

(** Scenario 3: [setParamValUnique("*:log", false)] under root. *)
Lemma setParamValUnique_multiple_sets_all_witness :
  exists c',
    setParamValUnique "*:log" (VBool false) root_a_b = Throws (MultipleMatches "*:log") c'
    /\ matches "*:log" c' =
         List.map (fun m => (fst m, with_val (VBool false) (snd m))) (matches "*:log" root_a_b)
    /\ matched_values "*:log" c' =
         List.map (fun _ => VBool false) (matches "*:log" root_a_b).
Proof.
  apply (setParamValUnique_multiple_sets_all "*:log" (VBool false) root_a_b).
  - intros m [<-|[<-|[]]]; reflexivity.
  - cbn. lia.
Defined.

(** C1 as stated fails in scenario 3: the error is raised, but both [a:log]
    and [b:log], [true] before the call, are [false] after it. *)
Lemma setParamValUnique_counterexample :
  List.map fst (matches "*:log" root_a_b) = ["a:log"; "b:log"]%string
  /\ matched_values "*:log" root_a_b = [VBool true; VBool true]
  /\ setParamValUnique "*:log" (VBool false) root_a_b =
       Throws (MultipleMatches "*:log") (set_all (VBool false) ["*"; "log"]%string root_a_b)
  /\ matched_values "*:log" (set_all (VBool false) ["*"; "log"]%string root_a_b) =
       [VBool false; VBool false].
Proof. repeat split. Qed.

(** C2: under a descriptor that matches no Parameter, both unique lookups
    raise the not-found error and leave the tree as it is:
    [setParamValUnique] does not return, and [getParamValUnique] does not get
    as far as element 0 of its empty vector. *)
Theorem unique_lookups_raise_not_found
    (descriptor : string) (val : Value) (T : ParamType) (c : Component) :
  matches descriptor c = [] ->
  setParamValUnique descriptor val c = Throws (NoParameterNamed descriptor) c
  /\ getParamValUnique T descriptor c = Throws (NoParameterNamed descriptor) c.
Proof.
  intros H.
  unfold setParamValUnique, setParamVal, getParamValUnique, getParamVal,
    findParamAndActOnIt.
  rewrite !walk_no_match by exact H.
  rewrite !bool_decide_eq_true_2 by reflexivity.
  split; reflexivity.
Qed.

(** Nothing under the root of scenario 3 is named [nosuch]. *)
Lemma unique_lookups_raise_not_found_witness :
  setParamValUnique "nosuch" (VBool false) root_a_b
    = Throws (NoParameterNamed "nosuch") root_a_b
  /\ getParamValUnique PBool "nosuch" root_a_b
     = Throws (NoParameterNamed "nosuch") root_a_b.
Proof.
  apply (unique_lookups_raise_not_found "nosuch" (VBool false) PBool root_a_b).
  reflexivity.
Defined.

(** *** addSubComponent *)

(** A component whose [init()] returns is initialized. *)
Lemma init_returns_initialized (c c' : Component) :
  init c = Returns tt c' -> itsInitialized c' = true.
Proof.
  destruct c as [a n par ini path h ps subs]. cbn [init].
  destruct (preInit h); cbn [negb]; [|discriminate].
  match goal with
  | |- context [match ?r with Returns _ _ => _ | Throws _ _ => _ | Undefined => _ end] =>
      destruct r as [[] subs'|e subs'|]
  end; try discriminate.
  destruct (postInit h); [|discriminate].
  intros [= <-]. reflexivity.
Qed.

Lemma init_keeps_identity (c c' : Component) :
  init c = Returns tt c' ->
  addr c' = addr c /\ itsInstanceName c' = itsInstanceName c /\ itsParent c' = itsParent c.
Proof.
  destruct c as [a n par ini path h ps subs]. cbn [init].
  destruct (preInit h); cbn [negb]; [|discriminate].
  match goal with
  | |- context [match ?r with Returns _ _ => _ | Throws _ _ => _ | Undefined => _ end] =>
      destruct r as [[] subs'|e subs'|]
  end; try discriminate.
  destruct (postInit h); [|discriminate].
  intros [= <-]. repeat split.
Qed.

(** C4: when the component is initialized and [addSubComponent] returns,
    the pointer it returns is the new child, allocated at [a], attached last
    in the list of sub-components, and initialized. *)
Theorem addSubComponent_initializes_child
    (defaultInstanceName : string -> string) (cls : CompClass) (instance : string)
    (a : nat) (parent parent' : Component) (sub : shared_ptr) :
  itsInitialized parent = true ->
  addSubComponent defaultInstanceName cls instance a parent = Returns sub parent' ->
  exists child,
    sub = Some child
    /\ itsInitialized child = true
    /\ addr child = a
    /\ itsParent child = Some (addr parent)
    /\ itsSubComponents parent' = itsSubComponents parent ++ [child].
Proof.
  intros Hinit. unfold addSubComponent. rewrite Hinit.
  destruct (computeInstanceName _ _ _ _) as [inst|e]; [|discriminate].
  unfold new_Comp. destruct (constructorThrows cls inst); [discriminate|].
  destruct (init _) as [[] child|e child|] eqn:E; try discriminate.
  intros [= <- <-]. exists child.
  destruct (init_keeps_identity _ _ E) as (Ha & _ & Hp).
  repeat split.
  - exact (init_returns_initialized _ _ E).
  - exact Ha.
  - exact Hp.
Qed.

(** Scenario 6: a Camera added to an initialized root. *)
Lemma addSubComponent_initializes_child_witness :
  exists child,
    Some (setPath "/root" (mkComponent 7 "cam" (Some 0%nat) true "" plainHooks [fps_param] []))
      = Some child
    /\ itsInitialized child = true
    /\ addr child = 7%nat
    /\ itsParent child = Some (addr initialized_root)
    /\ itsSubComponents
         (set_subs [setPath "/root"
                      (mkComponent 7 "cam" (Some 0%nat) true "" plainHooks [fps_param] [])]
            initialized_root)
       = itsSubComponents initialized_root ++ [child].
Proof.
  apply (addSubComponent_initializes_child (fun classname => classname) Camera "cam" 7
           initialized_root); reflexivity.
Defined.

(** C5: when the instance name that [addSubComponent] computes is the name
    of a sub-component, the call raises the name-clash error and leaves the
    component, its list of sub-components included, as it was. *)
Theorem addSubComponent_name_clash
    (defaultInstanceName : string -> string) (cls : CompClass) (instance : string)
    (a : nat) (parent : Component) (sibling : Component) :
  In sibling (itsSubComponents parent) ->
  itsInstanceName sibling =
    (if String.eqb instance "" then defaultInstanceName (demangledName cls) else instance) ->
  addSubComponent defaultInstanceName cls instance a parent =
    Throws (NameClash (itsInstanceName sibling)) parent.
Proof.
  intros Hin Hname. unfold addSubComponent, computeInstanceName.
  rewrite <- Hname.
  replace (existsb _ (itsSubComponents parent)) with true; [reflexivity|].
  symmetry. apply existsb_exists. exists sibling. split; [exact Hin|].
  apply String.eqb_refl.
Qed.

(** A second [a] under the root of scenario 3, and a second Camera with
    the default name. *)
Lemma addSubComponent_name_clash_witness :
  addSubComponent (fun classname => classname) Camera "a" 7 root_a_b =
    Throws (NameClash "a") root_a_b
  /\ addSubComponent (fun classname => classname) Camera "" 8
       (set_subs [leaf 7 "Camera" [fps_param]] initialized_root) =
     Throws (NameClash "Camera") (set_subs [leaf 7 "Camera" [fps_param]] initialized_root).
Proof.
  split.
  - apply (addSubComponent_name_clash (fun classname => classname) Camera "a" 7 root_a_b
             (leaf 1 "a" [log_param])); [now left|reflexivity].
  - apply (addSubComponent_name_clash (fun classname => classname) Camera "" 8
             (set_subs [leaf 7 "Camera" [fps_param]] initialized_root)
             (leaf 7 "Camera" [fps_param])); [now left|reflexivity].
Defined.

(** *** removeSubComponent *)

(** The search of [removeSubComponent] compares addresses only. *)
Lemma find_by_identity_none (subs : list Component) (handle : shared_ptr) :
  (forall x, In x subs -> Some (addr x) <> ptr_get handle) ->
  list_find (fun c => Some (addr c) = ptr_get handle) subs = None.
Proof.
  intros H. apply list_find_None. apply Forall_forall.
  intros x Hx. apply H. now apply list_elem_of_In.
Qed.

(** For a handle that points at a component the child is sought by
    address, whatever the names; when no child has the address, the call
    returns, the list of sub-components and the handle are as before, and
    the log has gained the not-found line. *)
Lemma removeSubComponent_not_found (st : RemoveState) (c : Component) :
  component st = Some c ->
  (forall x, In x (itsSubComponents (this st)) -> addr x <> addr c) ->
  removeSubComponent st =
    Returns tt
      {| this := this st; component := Some c;
         log := log st ++ [LERROR ("SubComponent [" +:+ itsInstanceName c
                                   +:+ "] not found. Ignored.")%string];
         detached := detached st |}.
Proof.
  intros Hc Hne. unfold removeSubComponent.
  rewrite find_by_identity_none.
  - rewrite Hc. reflexivity.
  - intros x Hx. rewrite Hc. cbn. intros [= E]. exact (Hne x Hx E).
Qed.

(** C6, at a null handle: no child is null, so the search fails, and the
    log line dereferences the null pointer for the instance name. *)
Theorem removeSubComponent_null_handle (c : Component) (l : list LogEntry)
    (d : list Component) :
  removeSubComponent {| this := c; component := None; log := l; detached := d |}
    = Undefined.
Proof.
  unfold removeSubComponent. cbn [component this].
  rewrite (find_by_identity_none (itsSubComponents c) None); [reflexivity|].
  intros x _. discriminate.
Qed.

(** A handle to another object named [b] removes nothing; the handle to the
    child [b] itself removes it. *)
Lemma removeSubComponent_by_identity :
  removeSubComponent
    {| this := root_a_b; component := Some (leaf 5 "b" []); log := []; detached := [] |}
  = Returns tt
      {| this := root_a_b; component := Some (leaf 5 "b" []);
         log := [LERROR "SubComponent [b] not found. Ignored."]; detached := [] |}
  /\ removeSubComponent
       {| this := root_a_b; component := Some (leaf 2 "b" [log_param]); log := [];
          detached := [] |}
     = Returns tt
         {| this := set_subs [leaf 1 "a" [log_param]] root_a_b; component := None;
            log := []; detached := [leaf 2 "b" [log_param]] |}.
Proof. split; reflexivity. Qed.

(** C10: for a handle that points at a component. If a child has its
    address, the handle is null when [doRemoveSubComponent] runs on the first
    such child: the call returns with a null handle, the child gone from the
    list, and no dangling pointer reported. If no child has its address, the
    call returns with the handle still pointing at the component. *)
Theorem removeSubComponent_handle (st : RemoveState) (c : Component) :
  component st = Some c ->
  (forall itr child,
      list_find (fun x => Some (addr x) = Some (addr c)) (itsSubComponents (this st))
        = Some (itr, child) ->
      removeSubComponent st =
        doRemoveSubComponent itr "SubComponent"
          {| this := this st; component := None; log := log st; detached := detached st |}
      /\ exists st',
           removeSubComponent st = Returns tt st'
           /\ component st' = None
           /\ log st' = log st
           /\ itsSubComponents (this st') = delete itr (itsSubComponents (this st)))
  /\ ((forall x, In x (itsSubComponents (this st)) -> addr x <> addr c) ->
      exists st',
        removeSubComponent st = Returns tt st'
        /\ component st' = Some c
        /\ this st' = this st).
Proof.
  intros Hc. split.
  - intros itr child Hfind.
    assert (E : removeSubComponent st =
                doRemoveSubComponent itr "SubComponent"
                  {| this := this st; component := None; log := log st;
                     detached := detached st |}).
    { unfold removeSubComponent. rewrite Hc. cbn [ptr_get fmap option_fmap option_map].
      rewrite Hfind. reflexivity. }
    split; [exact E|].
    apply list_find_Some in Hfind as (Hlook & _ & _).
    rewrite E. unfold doRemoveSubComponent. cbn [this component log detached].
    rewrite Hlook. eexists. split; [reflexivity|].
    cbn [component log this ptr_get fmap option_fmap option_map].
    rewrite bool_decide_eq_false_2 by discriminate.
    rewrite app_nil_r. repeat split.
  - intros Hne. rewrite (removeSubComponent_not_found st c Hc Hne).
    eexists. split; [reflexivity|]. split; reflexivity.
Qed.

(** The handle to the child [b] of scenario 3, and a handle to another
    object. *)
Lemma removeSubComponent_handle_witness :
  (exists st',
     removeSubComponent
       {| this := root_a_b; component := Some (leaf 2 "b" [log_param]); log := [];
          detached := [] |} = Returns tt st'
     /\ component st' = None
     /\ log st' = []
     /\ itsSubComponents (this st') = [leaf 1 "a" [log_param]])
  /\ (exists st',
        removeSubComponent
          {| this := root_a_b; component := Some (leaf 5 "b" []); log := [];
             detached := [] |} = Returns tt st'
        /\ component st' = Some (leaf 5 "b" [])
        /\ this st' = root_a_b).
Proof.
  split.
  - apply (proj1 (removeSubComponent_handle
                    {| this := root_a_b; component := Some (leaf 2 "b" [log_param]);
                       log := []; detached := [] |}
                    (leaf 2 "b" [log_param]) eq_refl)
                 1%nat (leaf 2 "b" [log_param])).
    reflexivity.
  - apply (proj2 (removeSubComponent_handle
                    {| this := root_a_b; component := Some (leaf 5 "b" []);
                       log := []; detached := [] |}
                    (leaf 5 "b" []) eq_refl)).
    intros x [<-|[<-|[]]]; discriminate.
Defined.

End CompFacts.

(** * Further properties of the code *)

(** ** ComponentImpl.H: sub-components *)

Module SubComponentFacts.
Import Param Comp Scenarios CompFacts.

(** *** getSubComponent *)

Section Lookup.
Variable Comp_name : string.
Variable is_Comp : Component -> bool.

(** The first sub-component with the given instance name, if any. *)
Lemma first_named_split (instance : string) (subs : list Component) :
  (forall y, In y subs -> itsInstanceName y <> instance)
  \/ exists before x after,
       subs = before ++ x :: after
       /\ itsInstanceName x = instance
       /\ forall y, In y before -> itsInstanceName y <> instance.
Proof.
  induction subs as [|c subs IH].
  - left. intros y [].
  - destruct (String.eqb_spec (itsInstanceName c) instance) as [E|N].
    + right. exists [], c, subs. repeat split; [exact E|intros y []].
    + destruct IH as [H|(before & x & after & -> & Hx & Hb)].
      * left. intros y [<-|Hy]; auto.
      * right. exists (c :: before), x, after. repeat split; [exact Hx|].
        intros y [<-|Hy]; auto.
Qed.

Lemma getSubComponent_from_skip (instance : string) (before rest : list Component) :
  (forall y, In y before -> itsInstanceName y <> instance) ->
  getSubComponent_from Comp_name is_Comp instance (before ++ rest) =
  getSubComponent_from Comp_name is_Comp instance rest.
Proof.
  induction before as [|c before IH]; intros H; [reflexivity|].
  cbn [app getSubComponent_from].
  destruct (String.eqb_spec (itsInstanceName c) instance) as [E|N].
  - exfalso. exact (H c (or_introl eq_refl) E).
  - apply IH. intros y Hy. apply H. now right.
Qed.

(** X1: getSubComponent returns a sub-component exactly when the first one
    with the instance name is of type Comp, and then returns that one. *)
Theorem getSubComponent_got (instance : string) (this x : Component) :
  getSubComponent Comp_name is_Comp instance this = Got x
  <->
  exists before after,
    itsSubComponents this = before ++ x :: after
    /\ itsInstanceName x = instance
    /\ is_Comp x = true
    /\ forall y, In y before -> itsInstanceName y <> instance.
Proof.
  unfold getSubComponent. split.
  - destruct (first_named_split instance (itsSubComponents this))
      as [H|(before & z & after & E & Hz & Hb)].
    + rewrite <- (app_nil_r (itsSubComponents this)).
      rewrite getSubComponent_from_skip by exact H. discriminate.
    + rewrite E, getSubComponent_from_skip by exact Hb.
      cbn [getSubComponent_from]. rewrite <- Hz, String.eqb_refl.
      destruct (is_Comp z) eqn:Hc; [|discriminate].
      intros [= <-]. exists before, after. rewrite Hz. auto.
  - intros (before & after & E & Hx & Hc & Hb).
    rewrite E, getSubComponent_from_skip by exact Hb.
    cbn [getSubComponent_from]. rewrite <- Hx, String.eqb_refl, Hc. reflexivity.
Qed.

(** X2: getSubComponent ends in the fatal "not found" exactly when no
    sub-component has the instance name, and in the fatal "is not of type"
    exactly when the first one with the name is not a Comp: a later
    sub-component of the same name is not looked at. *)
Theorem getSubComponent_fatal (instance : string) (this : Component) :
  (getSubComponent Comp_name is_Comp instance this = Fatal (SubComponentNotFound instance)
   <-> forall y, In y (itsSubComponents this) -> itsInstanceName y <> instance)
  /\
  (getSubComponent Comp_name is_Comp instance this
     = Fatal (SubComponentNotOfType instance Comp_name)
   <-> exists before x after,
         itsSubComponents this = before ++ x :: after
         /\ itsInstanceName x = instance
         /\ is_Comp x = false
         /\ forall y, In y before -> itsInstanceName y <> instance).
Proof.
  unfold getSubComponent.
  destruct (first_named_split instance (itsSubComponents this))
    as [H|(before & z & after & E & Hz & Hb)].
  - assert (R : getSubComponent_from Comp_name is_Comp instance (itsSubComponents this)
                = Fatal (SubComponentNotFound instance)).
    { rewrite <- (app_nil_r (itsSubComponents this)).
      now rewrite getSubComponent_from_skip by exact H. }
    rewrite R. split; split; try discriminate; auto.
    intros (b & x & a & E & Hx & _ & _). exfalso.
    apply (H x); [|exact Hx]. rewrite E. apply in_or_app. right. now left.
  - assert (R : getSubComponent_from Comp_name is_Comp instance (itsSubComponents this)
                = if is_Comp z then Got z
                  else Fatal (SubComponentNotOfType instance Comp_name)).
    { rewrite E, getSubComponent_from_skip by exact Hb.
      cbn [getSubComponent_from]. now rewrite <- Hz, String.eqb_refl. }
    rewrite R. split; split.
    + destruct (is_Comp z); discriminate.
    + intros H. exfalso. apply (H z); [|exact Hz].
      rewrite E. apply in_or_app. right. now left.
    + destruct (is_Comp z) eqn:Hc; [discriminate|]. intros _.
      exists before, z, after. auto.
    + intros (b & x & a & E' & Hx & Hc & Hb').
      assert (b = before /\ x = z) as [-> ->].
      { clear R. rewrite E in E'. clear E. revert b Hb E' Hb'.
        induction before as [|c before IH]; intros b Hb E' Hb'.
        - destruct b as [|c b]; cbn in E'; injection E' as E1 E2.
          + split; congruence.
          + exfalso. apply (Hb' c (or_introl eq_refl)). congruence.
        - destruct b as [|c' b]; cbn in E'; injection E' as E1 E2.
          + exfalso. apply (Hb c (or_introl eq_refl)). congruence.
          + destruct (IH b (fun y Hy => Hb y (or_intror Hy)) E2
                         (fun y Hy => Hb' y (or_intror Hy))) as [-> ->].
            split; congruence. }
      rewrite Hc. reflexivity.
Qed.

End Lookup.

(** X3: The specialization for [jevois::Component] is the template with a cast
    that always succeeds. *)
Theorem getSubComponent_Component_is_uncast (Comp_name instance : string) (this : Component) :
  getSubComponent_Component instance this =
  getSubComponent Comp_name (fun _ => true) instance this.
Proof.
  unfold getSubComponent_Component, getSubComponent.
  induction (itsSubComponents this) as [|c subs IH]; [reflexivity|].
  cbn [getSubComponent_Component_from getSubComponent_from].
  destruct (String.eqb (itsInstanceName c) instance); [reflexivity|exact IH].
Qed.

(** *** addSubComponent *)

(** What [init()] leaves of a component that was not initialized, however
    it ends. *)
Lemma init_outcome (c : Component) :
  itsInitialized c = false ->
  match init c with
  | Returns _ c' =>
      addr c' = addr c /\ itsInstanceName c' = itsInstanceName c
      /\ itsParent c' = itsParent c /\ itsInitialized c' = true
  | Throws _ c' =>
      addr c' = addr c /\ itsInstanceName c' = itsInstanceName c
      /\ itsParent c' = itsParent c /\ itsInitialized c' = false
  | Undefined => True
  end.
Proof.
  destruct c as [a n par ini path h ps subs]. cbn [itsInitialized]. intros ->.
  cbn [init]. destruct (preInit h); cbn [negb]; [|cbn; auto].
  match goal with
  | |- context [match ?r with Returns _ _ => _ | Throws _ _ => _ | Undefined => _ end] =>
      lazymatch type of r with
      | result (list Component) unit => destruct r as [[] subs'|e subs'|]
      end
  end; [|cbn; auto|exact I].
  destruct (postInit h); cbn; auto.
Qed.

(** The name [computeInstanceName] returns is the requested one, or the
    default for an empty request, and no sub-component has it. *)
Lemma computeInstanceName_ok (defaultInstanceName : string -> string)
    (instance classname inst : string) (this : Component) :
  computeInstanceName defaultInstanceName instance classname this = Ok inst ->
  inst = (if String.eqb instance "" then defaultInstanceName classname else instance)
  /\ forall y, In y (itsSubComponents this) -> itsInstanceName y <> inst.
Proof.
  unfold computeInstanceName.
  destruct (existsb _ _) eqn:E; [discriminate|]. intros [= <-]. split; [reflexivity|].
  intros y Hy Hname.
  assert (existsb (fun c => String.eqb (itsInstanceName c)
            (if String.eqb instance "" then defaultInstanceName classname else instance))
            (itsSubComponents this) = true) as E'.
  { apply existsb_exists. exists y. split; [exact Hy|]. now apply String.eqb_eq. }
  congruence.
Qed.

(** [init()] has no undefined behaviour of its own. *)
Lemma init_defined : forall c : Component, init c <> Undefined.
Proof.
  fix IH 1. intros c.
  destruct c as [a n par ini path h ps subs]. cbn [init].
  destruct (preInit h); cbn [negb]; [|discriminate].
  match goal with
  | |- context [match ?r with Returns _ _ => _ | Throws _ _ => _ | Undefined => _ end] =>
      assert (Hsubs : r <> Undefined); [|destruct r as [[] subs'|e subs'|]]
  end.
  - induction subs as [|x subs IHs]; [discriminate|].
    pose proof (IH x) as Hx.
    destruct (init x) as [[] x'|e x'|]; [|discriminate|congruence].
    match goal with
    | |- context [match ?r with Returns _ _ => _ | Throws _ _ => _ | Undefined => _ end] =>
        destruct r as [[] subs'|e subs'|]
    end; [discriminate|discriminate|congruence].
  - destruct (postInit h); discriminate.
  - discriminate.
  - congruence.
Qed.

(** Every way [addSubComponent] can end. *)
Lemma addSubComponent_cases (defaultInstanceName : string -> string) (cls : CompClass)
    (instance : string) (a : nat) (parent : Component) :
  let inst := if String.eqb instance "" then defaultInstanceName (demangledName cls)
              else instance in
  (* the name is taken *)
  ((exists y, In y (itsSubComponents parent) /\ itsInstanceName y = inst)
   /\ addSubComponent defaultInstanceName cls instance a parent
      = Throws (NameClash inst) parent)
  \/
  (* the name is free and the constructor throws *)
  ((forall y, In y (itsSubComponents parent) -> itsInstanceName y <> inst)
   /\ exists e,
        constructorThrows cls inst = Some e
        /\ addSubComponent defaultInstanceName cls instance a parent = Throws e parent)
  \/
  (* the name is free and the constructor returns *)
  ((forall y, In y (itsSubComponents parent) -> itsInstanceName y <> inst)
   /\ exists child,
        addr child = a /\ itsInstanceName child = inst
        /\ itsParent child = Some (addr parent)
        /\ ((itsInitialized child = itsInitialized parent
             /\ addSubComponent defaultInstanceName cls instance a parent
                = Returns (Some child)
                    (set_subs (itsSubComponents parent ++ [child]) parent))
            \/ (itsInitialized parent = true /\ itsInitialized child = false
                /\ exists e,
                     addSubComponent defaultInstanceName cls instance a parent
                     = Throws e (set_subs (itsSubComponents parent ++ [child]) parent)))).
Proof.
  intros inst. unfold addSubComponent.
  destruct (computeInstanceName defaultInstanceName instance (demangledName cls) parent)
    as [inst'|e] eqn:E.
  - apply computeInstanceName_ok in E as [-> Hfree]. fold inst. fold inst in Hfree.
    right. unfold new_Comp.
    destruct (constructorThrows cls inst) as [e|] eqn:Hc.
    { left. split; [exact Hfree|]. exists e. auto. }
    right. split; [exact Hfree|].
    fold (attached cls a inst parent).
    destruct (itsInitialized parent) eqn:Hini.
    + pose proof (init_outcome (attached cls a inst parent) eq_refl) as H.
      pose proof (init_defined (attached cls a inst parent)) as Hdef.
      destruct (init (attached cls a inst parent)) as [[] child|e child|];
        [| |congruence]; destruct H as (Ha & Hn & Hp & Hi);
        exists child; repeat split; auto.
      right. repeat split; auto. exists e. reflexivity.
    + exists (attached cls a inst parent). repeat split. left. split; reflexivity.
  - left. unfold computeInstanceName in E. fold inst in E.
    destruct (existsb _ _) eqn:Ex; [|discriminate].
    apply existsb_exists in Ex as (y & Hy & Hname). apply String.eqb_eq in Hname.
    injection E as <-. split; [|reflexivity]. exists y. auto.
Qed.

Lemma set_subs_set_subs (l l' : list Component) (c : Component) :
  set_subs l (set_subs l' c) = set_subs l c.
Proof. reflexivity. Qed.

Lemma NoDup_snoc {X : Type} (l : list X) (x : X) :
  NoDup l -> ~ In x l -> NoDup (l ++ [x]).
Proof.
  intros Hl Hx. apply NoDup_app. split; [exact Hl|]. split.
  - intros y Hy Hyx. apply list_elem_of_singleton in Hyx as ->.
    apply Hx. now apply list_elem_of_In.
  - apply NoDup_singleton.
Qed.

(** X4: However addSubComponent ends, it leaves what the component had: its
    own fields and its previous sub-components are as before, in their order,
    and at most one sub-component has been appended, which lives at the new
    address and has the component as parent. *)
Theorem addSubComponent_frame (defaultInstanceName : string -> string) (cls : CompClass)
    (instance : string) (a : nat) (parent : Component) :
  exists parent' added,
    ((exists child,
        added = [child]
        /\ addSubComponent defaultInstanceName cls instance a parent
           = Returns (Some child) parent')
     \/ (exists e,
           addSubComponent defaultInstanceName cls instance a parent = Throws e parent'))
    /\ (length added <= 1)%nat
    /\ set_subs (itsSubComponents parent) parent' = parent
    /\ itsSubComponents parent' = itsSubComponents parent ++ added
    /\ Forall (fun child => addr child = a /\ itsParent child = Some (addr parent)) added.
Proof.
  destruct (addSubComponent_cases defaultInstanceName cls instance a parent)
    as [(_ & E)|[(_ & e & _ & E)|(_ & child & Ha & _ & Hp & [(_ & E)|(_ & _ & e & E)])]].
  - exists parent, []. split; [right; eauto|]. cbn [length]. rewrite app_nil_r.
    repeat split; [lia|apply set_subs_same|constructor].
  - exists parent, []. split; [right; eauto|]. cbn [length]. rewrite app_nil_r.
    repeat split; [lia|apply set_subs_same|constructor].
  - exists (set_subs (itsSubComponents parent ++ [child]) parent), [child].
    split; [left; eauto|]. rewrite set_subs_set_subs, set_subs_same.
    repeat split; [cbn; lia|]. constructor; [auto|constructor].
  - exists (set_subs (itsSubComponents parent ++ [child]) parent), [child].
    split; [right; eauto|]. rewrite set_subs_set_subs, set_subs_same.
    repeat split; [cbn; lia|]. constructor; [auto|constructor].
Qed.

(** X5: When addSubComponent returns, the new sub-component is in the run
    state of the component: initialized exactly when the component is; it
    bears the computed instance name, which no other sub-component has. *)
Theorem addSubComponent_runstate (defaultInstanceName : string -> string) (cls : CompClass)
    (instance : string) (a : nat) (parent parent' : Component) (sub : shared_ptr) :
  addSubComponent defaultInstanceName cls instance a parent = Returns sub parent' ->
  exists child,
    sub = Some child
    /\ itsInitialized child = itsInitialized parent
    /\ itsInstanceName child =
         (if String.eqb instance "" then defaultInstanceName (demangledName cls)
          else instance)
    /\ (forall y, In y (itsSubComponents parent) ->
          itsInstanceName y <> itsInstanceName child)
    /\ itsSubComponents parent' = itsSubComponents parent ++ [child].
Proof.
  intros R.
  destruct (addSubComponent_cases defaultInstanceName cls instance a parent)
    as [(_ & E)|[(_ & e & _ & E)
                |(Hfree & child & Ha & Hn & Hp & [(Hi & E)|(_ & _ & e & E)])]];
    rewrite E in R; try discriminate.
  injection R as <- <-. exists child. rewrite Hn. repeat split; auto.
Qed.

Lemma addSubComponent_runstate_witness :
  exists child,
    Some (attached Camera 7 "cam" root_a_b) = Some child
    /\ itsInitialized child = itsInitialized root_a_b
    /\ itsInstanceName child = "cam"%string
    /\ (forall y, In y (itsSubComponents root_a_b) ->
          itsInstanceName y <> itsInstanceName child)
    /\ itsSubComponents
         (set_subs (itsSubComponents root_a_b ++ [attached Camera 7 "cam" root_a_b])
            root_a_b)
       = itsSubComponents root_a_b ++ [child].
Proof.
  apply (addSubComponent_runstate (fun classname => classname) Camera "cam" 7 root_a_b).
  reflexivity.
Defined.

(** X6: When addSubComponent throws, either the component is untouched,
    because the name was taken or because the constructor of the new
    sub-component threw, or the component is initialized and [init()] of the
    new sub-component threw: that sub-component then stays in the list,
    uninitialized. *)
Theorem addSubComponent_throws (defaultInstanceName : string -> string) (cls : CompClass)
    (instance : string) (a : nat) (parent parent' : Component) (e : exception) :
  addSubComponent defaultInstanceName cls instance a parent = Throws e parent' ->
  (parent' = parent
   /\ ((exists y, In y (itsSubComponents parent) /\ e = NameClash (itsInstanceName y))
       \/ constructorThrows cls
            (if String.eqb instance "" then defaultInstanceName (demangledName cls)
             else instance) = Some e))
  \/
  (itsInitialized parent = true
   /\ exists child,
        itsSubComponents parent' = itsSubComponents parent ++ [child]
        /\ addr child = a
        /\ itsInitialized child = false).
Proof.
  intros T.
  destruct (addSubComponent_cases defaultInstanceName cls instance a parent)
    as [((y & Hy & Hn) & E)
       |[(_ & e0 & Hc & E)
        |(Hfree & child & Ha & Hn & Hp & [(Hi & E)|(Hp' & Hi & e' & E)])]];
    rewrite E in T; try discriminate.
  - injection T as <- <-. left. split; [reflexivity|]. left. exists y. rewrite Hn. auto.
  - injection T as <- <-. left. split; [reflexivity|]. right. exact Hc.
  - injection T as <- <-. right. split; [exact Hp'|]. exists child. auto.
Qed.

(** A port whose constructor throws, added to the root of scenario 3, and
    a camera whose [preInit] throws, added to an initialized root. *)
Lemma addSubComponent_throws_witness :
  ((root_a_b = root_a_b
    /\ ((exists y, In y (itsSubComponents root_a_b)
                   /\ DeviceError = NameClash (itsInstanceName y))
        \/ constructorThrows AbsentPort "serial" = Some DeviceError))
   \/
   (itsInitialized root_a_b = true
    /\ exists child,
         itsSubComponents root_a_b = itsSubComponents root_a_b ++ [child]
         /\ addr child = 7%nat
         /\ itsInitialized child = false))
  /\
  ((set_subs [attached BrokenCamera 7 "cam" initialized_root] initialized_root
    = initialized_root
    /\ ((exists y, In y (itsSubComponents initialized_root)
                   /\ HookFailed "cam" = NameClash (itsInstanceName y))
        \/ constructorThrows BrokenCamera "cam" = Some (HookFailed "cam")))
   \/
   (itsInitialized initialized_root = true
    /\ exists child,
         itsSubComponents
           (set_subs [attached BrokenCamera 7 "cam" initialized_root] initialized_root)
         = itsSubComponents initialized_root ++ [child]
         /\ addr child = 7%nat
         /\ itsInitialized child = false)).
Proof.
  split.
  - apply (addSubComponent_throws (fun classname => classname) AbsentPort "serial" 7
             root_a_b). reflexivity.
  - apply (addSubComponent_throws (fun classname => classname) BrokenCamera "cam" 7
             initialized_root). reflexivity.
Defined.

(** X7: addSubComponent keeps the instance names of the sub-components
    distinct, however it ends. *)
Theorem addSubComponent_keeps_names_distinct (defaultInstanceName : string -> string)
    (cls : CompClass) (instance : string) (a : nat) (parent parent' : Component) :
  NoDup (List.map itsInstanceName (itsSubComponents parent)) ->
  (exists sub, addSubComponent defaultInstanceName cls instance a parent
               = Returns sub parent')
  \/ (exists e, addSubComponent defaultInstanceName cls instance a parent
                = Throws e parent') ->
  NoDup (List.map itsInstanceName (itsSubComponents parent')).
Proof.
  intros Hnd Hout.
  assert (Hsnoc : forall child,
            (forall y, In y (itsSubComponents parent) ->
               itsInstanceName y <> itsInstanceName child) ->
            NoDup (List.map itsInstanceName (itsSubComponents parent ++ [child]))).
  { intros child Hfree. rewrite List.map_app. cbn [List.map].
    apply NoDup_snoc; [exact Hnd|].
    intros Hin. apply in_map_iff in Hin as (y & Hn & Hy). exact (Hfree y Hy Hn). }
  destruct (addSubComponent_cases defaultInstanceName cls instance a parent)
    as [(_ & E)|[(_ & e0 & _ & E)
                |(Hfree & child & Ha & Hn & Hp & [(Hi & E)|(Hp' & Hi & e' & E)])]];
    destruct Hout as [(sub & R)|(e & T)]; rewrite E in *; try discriminate.
  - injection T as _ <-. exact Hnd.
  - injection T as _ <-. exact Hnd.
  - injection R as _ <-. apply Hsnoc. now rewrite Hn.
  - injection T as _ <-. apply Hsnoc. now rewrite Hn.
Qed.

Lemma addSubComponent_keeps_names_distinct_witness :
  NoDup (List.map itsInstanceName
           (itsSubComponents
              (set_subs (itsSubComponents root_a_b ++ [attached Camera 7 "cam" root_a_b])
                 root_a_b))).
Proof.
  apply (addSubComponent_keeps_names_distinct (fun classname => classname) Camera "cam" 7
           root_a_b).
  - apply (bool_decide_unpack _). vm_compute. exact I.
  - left. eexists. reflexivity.
Defined.

Lemma getSubComponent_Component_from_skip (instance : string)
    (before rest : list Component) :
  (forall y, In y before -> itsInstanceName y <> instance) ->
  getSubComponent_Component_from instance (before ++ rest) =
  getSubComponent_Component_from instance rest.
Proof.
  induction before as [|c before IH]; intros H; [reflexivity|].
  cbn [app getSubComponent_Component_from].
  destruct (String.eqb_spec (itsInstanceName c) instance) as [E|N].
  - exfalso. exact (H c (or_introl eq_refl) E).
  - apply IH. intros y Hy. apply H. now right.
Qed.

(** X8: A sub-component that addSubComponent returned is the one that
    getSubComponent then finds under its instance name. *)
Theorem getSubComponent_after_add (defaultInstanceName : string -> string) (cls : CompClass)
    (instance : string) (a : nat) (parent parent' child : Component) :
  addSubComponent defaultInstanceName cls instance a parent
    = Returns (Some child) parent' ->
  getSubComponent_Component (itsInstanceName child) parent' = Got child.
Proof.
  intros R.
  destruct (addSubComponent_cases defaultInstanceName cls instance a parent)
    as [(_ & E)|[(_ & e & _ & E)
                |(Hfree & child' & Ha & Hn & Hp & [(Hi & E)|(_ & _ & e & E)])]];
    rewrite E in R; try discriminate.
  injection R as <- <-. unfold getSubComponent_Component. cbn [itsSubComponents set_subs].
  rewrite getSubComponent_Component_from_skip by (rewrite Hn; exact Hfree).
  cbn [getSubComponent_Component_from]. now rewrite String.eqb_refl.
Qed.

Lemma getSubComponent_after_add_witness :
  getSubComponent_Component
    (itsInstanceName (attached Camera 7 "Camera" root_a_b))
    (set_subs (itsSubComponents root_a_b ++ [attached Camera 7 "Camera" root_a_b])
       root_a_b)
  = Got (attached Camera 7 "Camera" root_a_b).
Proof.
  apply (getSubComponent_after_add (fun classname => classname) Camera "" 7 root_a_b).
  reflexivity.
Defined.

(** *** removeSubComponent *)

Lemma filter_other_than_all (a : nat) (l : list Component) :
  (forall y, In y l -> addr y <> a) -> List.filter (other_than a) l = l.
Proof.
  induction l as [|y l IH]; intros H; [reflexivity|]. cbn [List.filter].
  unfold other_than at 1.
  destruct (Nat.eqb_spec (addr y) a) as [E|N].
  - exfalso. exact (H y (or_introl eq_refl) E).
  - cbn [negb]. f_equal. apply IH. intros z Hz. apply H. now right.
Qed.

(** With distinct addresses, erasing the first sub-component at an address
    leaves exactly the sub-components at other addresses. *)
Lemma delete_found_is_filter (a : nat) (l : list Component) :
  NoDup (List.map addr l) ->
  forall itr x,
    list_find (fun c => Some (addr c) = Some a) l = Some (itr, x) ->
    l !! itr = Some x /\ addr x = a /\ delete itr l = List.filter (other_than a) l.
Proof.
  induction l as [|y l IH]; intros Hnd itr x Hfind; [discriminate|].
  cbn [List.map] in Hnd. inversion Hnd as [|? ? Hy Hnd']; subst.
  cbn [list_find] in Hfind. cbn [List.filter]. unfold other_than at 1.
  destruct (decide (Some (addr y) = Some a)) as [E|N].
  - injection Hfind as <- <-. injection E as E.
    rewrite E, Nat.eqb_refl. cbn [negb]. split; [reflexivity|]. split; [reflexivity|].
    cbn. symmetry. apply filter_other_than_all.
    intros z Hz Hza. apply Hy. apply list_elem_of_In. rewrite E, <- Hza.
    now apply in_map.
  - destruct (list_find _ l) as [[j z]|] eqn:F; [|discriminate].
    cbn in Hfind. injection Hfind as <- <-.
    destruct (IH Hnd' j z eq_refl) as (Hl & Hz & Hd).
    destruct (Nat.eqb_spec (addr y) a) as [E|_]; [exfalso; apply N; now rewrite E|].
    cbn [negb]. split; [exact Hl|]. split; [exact Hz|].
    change (delete (S j) (y :: l)) with (y :: delete j l). now rewrite Hd.
Qed.

(** X10: When the sub-components have distinct addresses and one of them is at
    the address of the handle, removeSubComponent returns with the handle
    reset, and the sub-components left are exactly those at other addresses,
    in their order: one fewer than before. *)
Theorem removeSubComponent_removes_that_child (st : RemoveState) (c : Component) :
  component st = Some c ->
  NoDup (List.map addr (itsSubComponents (this st))) ->
  (exists x, In x (itsSubComponents (this st)) /\ addr x = addr c) ->
  exists st',
    removeSubComponent st = Returns tt st'
    /\ component st' = None
    /\ itsSubComponents (this st') =
         List.filter (other_than (addr c)) (itsSubComponents (this st))
    /\ S (length (itsSubComponents (this st'))) = length (itsSubComponents (this st))
    /\ set_subs (itsSubComponents (this st)) (this st') = this st.
Proof.
  intros Hc Hnd (x & Hx & Hxa).
  destruct (list_find (fun y => Some (addr y) = Some (addr c)) (itsSubComponents (this st)))
    as [[itr z]|] eqn:F.
  - destruct (delete_found_is_filter _ _ Hnd itr z F) as (Hl & Hz & Hd).
    unfold removeSubComponent. rewrite Hc. cbn [ptr_get fmap option_fmap option_map].
    rewrite F. unfold doRemoveSubComponent. cbn [this component log detached].
    rewrite Hl. eexists. split; [reflexivity|]. cbn [this component].
    repeat split.
    + cbn [itsSubComponents set_subs]. exact Hd.
    + cbn [itsSubComponents set_subs]. rewrite length_delete by eauto.
      apply lookup_lt_Some in Hl. lia.
    + rewrite set_subs_set_subs. apply set_subs_same.
  - exfalso. apply list_find_None in F.
    apply (proj1 (Forall_forall _ _) F x); [now apply list_elem_of_In|].
    now rewrite Hxa.
Qed.

Lemma removeSubComponent_removes_that_child_witness :
  exists st',
    removeSubComponent
      {| this := root_a_b; component := Some (leaf 1 "a" []); log := []; detached := [] |}
    = Returns tt st'
    /\ component st' = None
    /\ itsSubComponents (this st') =
         List.filter (other_than 1) (itsSubComponents root_a_b)
    /\ S (length (itsSubComponents (this st'))) = length (itsSubComponents root_a_b)
    /\ set_subs (itsSubComponents root_a_b) (this st') = root_a_b.
Proof.
  apply (removeSubComponent_removes_that_child
           {| this := root_a_b; component := Some (leaf 1 "a" []); log := [];
              detached := [] |} (leaf 1 "a" [])).
  - reflexivity.
  - apply (bool_decide_unpack _). vm_compute. exact I.
  - exists (leaf 1 "a" [log_param]). split; [now left|reflexivity].
Defined.



(** X9: A second addSubComponent under the instance name of a sub-component
    that addSubComponent has returned throws the name clash and leaves the
    component as the first call left it. *)
Theorem addSubComponent_twice (defaultInstanceName : string -> string)
    (cls cls' : CompClass) (instance : string) (a a' : nat)
    (parent parent' : Component) (sub : shared_ptr) :
  instance <> ""%string ->
  addSubComponent defaultInstanceName cls instance a parent = Returns sub parent' ->
  addSubComponent defaultInstanceName cls' instance a' parent'
    = Throws (NameClash instance) parent'.
Proof.
  intros Hne R.
  assert (Hi : String.eqb instance "" = false) by now apply String.eqb_neq.
  destruct (addSubComponent_cases defaultInstanceName cls instance a parent)
    as [(_ & E)|[(_ & e & _ & E)
                |(_ & child & _ & Hn & _ & [(_ & E)|(_ & _ & e & E)])]];
    rewrite E in R; try discriminate.
  injection R as <- <-. rewrite Hi in Hn.
  destruct (addSubComponent_cases defaultInstanceName cls' instance a'
              (set_subs (itsSubComponents parent ++ [child]) parent))
    as [(_ & E')|[(Hfree & _)|(Hfree & _)]]; rewrite Hi in *.
  - exact E'.
  - exfalso. apply (Hfree child); [|exact Hn].
    cbn [itsSubComponents set_subs]. apply in_or_app. right. now left.
  - exfalso. apply (Hfree child); [|exact Hn].
    cbn [itsSubComponents set_subs]. apply in_or_app. right. now left.
Qed.

Lemma addSubComponent_twice_witness :
  addSubComponent (fun classname => classname) BrokenCamera "cam" 8
    (set_subs (itsSubComponents root_a_b ++ [attached Camera 7 "cam" root_a_b]) root_a_b)
  = Throws (NameClash "cam")
      (set_subs (itsSubComponents root_a_b ++ [attached Camera 7 "cam" root_a_b]) root_a_b).
Proof.
  apply (addSubComponent_twice (fun classname => classname) Camera BrokenCamera "cam" 7 8
           root_a_b _ (Some (attached Camera 7 "cam" root_a_b))).
  - discriminate.
  - reflexivity.
Defined.

End SubComponentFacts.

(** ** ComponentImpl.H: Parameter access by descriptor *)

Module ParamAccessFacts.
Import Param Comp Scenarios CompFacts.

Lemma find_app {X : Type} (f : X -> bool) (l1 l2 : list X) :
  List.find f (l1 ++ l2) =
  match List.find f l1 with
  | Some x => Some x
  | None => List.find f l2
  end.
Proof.
  induction l1 as [|x l1 IH]; [reflexivity|]. cbn [app List.find].
  destruct (f x); [reflexivity|exact IH].
Qed.

(** *** Reading *)

Section ReadEach.
Context {X M R : Type}.
Variable selected : X -> bool.
Variable under : X -> list M.
Variable bad : M -> bool.
Variable val : M -> R.
Variable err : M -> exception.
Variable act : X -> list R -> result (X * list R) unit.

(** A visit that reads: it goes through the matches under the selected
    elements in order, stops at the first bad one, and changes no element. *)
Lemma act_on_each_reads (l : list X) :
  (forall x, In x l -> selected x = true ->
     forall acc,
       (List.find bad (under x) = None
        /\ act x acc = Returns tt (x, acc ++ List.map val (under x)))
       \/ (exists m acc', List.find bad (under x) = Some m
                          /\ act x acc = Throws (err m) (x, acc'))) ->
  forall acc,
    (List.find bad (List.flat_map under (List.filter selected l)) = None
     /\ act_on_each selected act l acc =
          Returns tt (l, acc ++ List.map val (List.flat_map under (List.filter selected l))))
    \/ (exists m acc', List.find bad (List.flat_map under (List.filter selected l)) = Some m
                       /\ act_on_each selected act l acc = Throws (err m) (l, acc')).
Proof.
  induction l as [|x l IH]; intros H acc.
  - left. cbn. now rewrite app_nil_r.
  - assert (Hl : forall y, In y l -> selected y = true ->
              forall acc0,
                (List.find bad (under y) = None
                 /\ act y acc0 = Returns tt (y, acc0 ++ List.map val (under y)))
                \/ (exists m acc', List.find bad (under y) = Some m
                                   /\ act y acc0 = Throws (err m) (y, acc')))
      by (intros y Hy; apply H; now right).
    cbn [act_on_each List.filter]. destruct (selected x) eqn:Hsel.
    + cbn [List.flat_map]. rewrite find_app, List.map_app.
      destruct (H x (or_introl eq_refl) Hsel acc) as [(Hf & Hx)|(m & acc' & Hf & Hx)];
        rewrite Hf, Hx.
      * destruct (IH Hl (acc ++ List.map val (under x))) as [(Hf' & E)|(m & acc' & Hf' & E)];
          rewrite Hf', E; cbn [map_state].
        -- left. now rewrite app_assoc.
        -- right. eauto.
      * right. eauto.
    + destruct (IH Hl acc) as [(Hf' & E)|(m & acc' & Hf' & E)];
        rewrite Hf', E; cbn [map_state]; [left|right]; eauto.
Qed.

End ReadEach.

(** The walk of [getParamVal<T>] reads the matches in their order up to
    the first one of another type, and leaves the tree. *)
Lemma walk_get (T : ParamType) (segs : list string) :
  forall unrolled c ret,
    (List.find (fun m => negb (has_type T m)) (matching segs unrolled c) = None
     /\ walk (get_action T) segs unrolled c ret
        = Returns tt (c, ret ++ List.map read (matching segs unrolled c)))
    \/ (exists m ret',
          List.find (fun m => negb (has_type T m)) (matching segs unrolled c) = Some m
          /\ walk (get_action T) segs unrolled c ret
             = Throws (IncorrectType (fst m)) (c, ret')).
Proof.
  induction segs as [|seg segs IH]; intros unrolled c ret.
  - left. cbn. now rewrite app_nil_r.
  - cbn [walk matching]. destruct segs as [|seg' segs].
    + rewrite <- flat_map_singleton.
      destruct (act_on_each_reads (fun p => segment_matches seg (name p))
                  (fun p => [((unrolled +:+ name p)%string, p)])
                  (fun m => negb (has_type T m)) read (fun m => IncorrectType (fst m))
                  (fun p => get_action T p (unrolled +:+ name p)%string)
                  (itsParameters c)) with (acc := ret)
        as [(Hf & E)|(m & acc' & Hf & E)].
      * intros p _ _ acc. unfold get_action, has_type. cbn [List.find snd fst].
        destruct (bool_decide (type_of (itsVal p) = T)); cbn [negb]; [left|right]; eauto.
      * left. rewrite Hf, E. cbn [map_state]. now rewrite set_params_same.
      * right. exists m, acc'. rewrite Hf, E. cbn [map_state].
        now rewrite set_params_same.
    + destruct (act_on_each_reads (fun x => segment_matches seg (itsInstanceName x))
                  (fun x => matching (seg' :: segs)
                              (unrolled +:+ itsInstanceName x +:+ ":")%string x)
                  (fun m => negb (has_type T m)) read (fun m => IncorrectType (fst m))
                  (fun x => walk (get_action T) (seg' :: segs)
                              (unrolled +:+ itsInstanceName x +:+ ":")%string x)
                  (itsSubComponents c)) with (acc := ret)
        as [(Hf & E)|(m & acc' & Hf & E)].
      * intros x _ _ acc. apply IH.
      * left. rewrite Hf, E. cbn [map_state]. now rewrite set_subs_same.
      * right. exists m, acc'. rewrite Hf, E. cbn [map_state].
        now rewrite set_subs_same.
Qed.

(** X12: On a descriptor that matches something, getParamVal reads: it
    never changes the tree. When every match has the type asked for, it
    returns the pair of resolved descriptor and value of every match, in the
    order of the walk; otherwise it throws the incorrect-type error for the
    first match of another type. *)
Theorem getParamVal_reads (T : ParamType) (descriptor : string) (c : Component) :
  matches descriptor c <> [] ->
  getParamVal T descriptor c =
  match List.find (fun m => negb (has_type T m)) (matches descriptor c) with
  | None => Returns (List.map read (matches descriptor c)) c
  | Some m => Throws (IncorrectType (fst m)) c
  end.
Proof.
  unfold getParamVal, findParamAndActOnIt, matches. intros Hne.
  destruct (walk_get T (segments descriptor) "" c []) as [(Hf & E)|(m & ret' & Hf & E)];
    rewrite Hf, E; [|reflexivity].
  cbn [app].
  destruct (matching (segments descriptor) "" c) as [|m ms]; [congruence|].
  cbn [List.map]. rewrite bool_decide_eq_false_2 by discriminate. reflexivity.
Qed.

(** Scenario 3, read as [bool] and as [int]. *)
Lemma getParamVal_reads_witness :
  getParamVal PBool "*:log" root_a_b
    = Returns [("a:log"%string, VBool true); ("b:log"%string, VBool true)] root_a_b
  /\ getParamVal PInt "*:log" root_a_b = Throws (IncorrectType "a:log") root_a_b.
Proof.
  split.
  - apply (getParamVal_reads PBool "*:log" root_a_b). discriminate.
  - apply (getParamVal_reads PInt "*:log" root_a_b). discriminate.
Defined.

(** *** Writing *)

Lemma accepts_has_type (v : Value) (m : string * ParameterCore) :
  accepts v (snd m) = true -> has_type (type_of v) m = true.
Proof.
  unfold accepts, has_type. intros H.
  apply andb_prop in H as [H _]. now apply andb_prop in H as [H _].
Qed.

(** A Parameter that does not take the value is left as it is, and the
    refusal is thrown. *)
Lemma set_action_refuses (v : Value) (p : ParameterCore) (unrolled : string) :
  accepts v p = false ->
  forall ret,
    set_action v p unrolled ret = Throws (refusal v (unrolled, p)) (p, ret).
Proof.
  unfold accepts, set_action, refusal, has_type, Param.set. cbn [fst snd].
  intros H ret.
  destruct (bool_decide (type_of (itsVal p) = type_of v)); [|reflexivity].
  destruct (checkValueValidity (itsValidValuesSpec p) v); [|reflexivity].
  cbn [negb]. destruct (itsCallback p) as [callback|]; [|discriminate].
  cbn in H. now rewrite H.
Qed.

(** A list that has an element that fails a test splits at the first such
    element. *)
Lemma split_at_first_false {X : Type} (ok : X -> bool) (l : list X) :
  (forall x, In x l -> ok x = true)
  \/ exists pre m post,
       l = pre ++ m :: post /\ (forall x, In x pre -> ok x = true) /\ ok m = false.
Proof.
  induction l as [|x l IH].
  - left. intros x [].
  - destruct (ok x) eqn:E.
    + destruct IH as [H|(pre & m & post & -> & Hpre & Hm)].
      * left. intros y [<-|Hy]; auto.
      * right. exists (x :: pre), m, post. repeat split; [|exact Hm].
        intros y [<-|Hy]; auto.
    + right. exists [], x, l. repeat split; [intros y []|exact E].
Qed.

Section WriteEach.
Context {X M : Type}.
Variable selected : X -> bool.
Variable under : X -> list M.
Variable ok : M -> bool.
Variable key : M -> string.
Variable after : M -> M.
Variable err : M -> exception.
Variable act : X -> list string -> result (X * list string) unit.

(** A visit that writes, with a first match that refuses: the matches
    before it are written, the refusal is thrown, and the matches from it on
    are as before. *)
Lemma act_on_each_stops (l : list X) :
  (forall x, In x l -> selected x = true ->
     (forall m, In m (under x) -> ok m = true) ->
     exists x',
       (forall acc, act x acc = Returns tt (x', acc ++ List.map key (under x)))
       /\ under x' = List.map after (under x) /\ selected x' = true) ->
  (forall x, In x l -> selected x = true ->
     forall pre m post,
       under x = pre ++ m :: post ->
       (forall m', In m' pre -> ok m' = true) -> ok m = false ->
       exists x',
         (forall acc, act x acc = Throws (err m) (x', acc ++ List.map key pre))
         /\ under x' = List.map after pre ++ m :: post /\ selected x' = true) ->
  forall pre m post,
    List.flat_map under (List.filter selected l) = pre ++ m :: post ->
    (forall m', In m' pre -> ok m' = true) -> ok m = false ->
    exists l',
      (forall acc,
         act_on_each selected act l acc = Throws (err m) (l', acc ++ List.map key pre))
      /\ List.flat_map under (List.filter selected l') = List.map after pre ++ m :: post.
Proof.
  induction l as [|x l IH]; intros Hfull Hpart pre m post E Hpre Hm.
  - destruct pre; discriminate.
  - assert (Hfull' : forall y, In y l -> selected y = true ->
              (forall m0, In m0 (under y) -> ok m0 = true) ->
              exists y',
                (forall acc0, act y acc0 = Returns tt (y', acc0 ++ List.map key (under y)))
                /\ under y' = List.map after (under y) /\ selected y' = true)
      by (intros y Hy; apply Hfull; now right).
    assert (Hpart' : forall y, In y l -> selected y = true ->
              forall pre0 m0 post0,
                under y = pre0 ++ m0 :: post0 ->
                (forall m', In m' pre0 -> ok m' = true) -> ok m0 = false ->
                exists y',
                  (forall acc0, act y acc0 = Throws (err m0) (y', acc0 ++ List.map key pre0))
                  /\ under y' = List.map after pre0 ++ m0 :: post0 /\ selected y' = true)
      by (intros y Hy; apply Hpart; now right).
    cbn [act_on_each List.filter] in *. destruct (selected x) eqn:Hsel.
    + cbn [List.flat_map] in E.
      apply app_eq_app in E as (k & [(Ex & Erest)|(Epre & Erest)]).
      * (* under x = pre ++ k, m :: post = k ++ rest *)
        destruct k as [|m0 k].
        -- (* the refusing match is under a later element *)
           cbn [app] in Erest. rewrite app_nil_r in Ex.
           destruct (Hfull x (or_introl eq_refl) Hsel) as (x' & Hx & Hu & Hs).
           { intros m0 Hm0. apply Hpre. now rewrite <- Ex. }
           destruct (IH Hfull' Hpart' [] m post
                       (eq_sym Erest) (fun m' (H : In m' []) => match H with end) Hm)
             as (l' & El & Hl').
           exists (x' :: l'). split.
           { intros acc. rewrite Hx, El. cbn [map_state List.map].
             now rewrite app_nil_r, Ex. }
           cbn [List.filter]. rewrite Hs. cbn [List.flat_map].
           rewrite Hu, Hl', Ex. reflexivity.
        -- (* the refusing match is under x *)
           cbn [app] in Erest. injection Erest as <- ->.
           destruct (Hpart x (or_introl eq_refl) Hsel pre m k Ex Hpre Hm)
             as (x' & Hx & Hu & Hs).
           exists (x' :: l). split; [intros acc; now rewrite Hx|].
           cbn [List.filter]. rewrite Hs. cbn [List.flat_map].
           rewrite Hu, <- app_assoc. reflexivity.
      * (* pre = under x ++ k, rest = k ++ m :: post *)
        destruct (Hfull x (or_introl eq_refl) Hsel) as (x' & Hx & Hu & Hs).
        { intros m0 Hm0. apply Hpre. rewrite Epre. apply in_or_app. now left. }
        destruct (IH Hfull' Hpart' k m post Erest)
          as (l' & El & Hl'); [|exact Hm|].
        { intros m' Hm'. apply Hpre. rewrite Epre. apply in_or_app. now right. }
        exists (x' :: l'). rewrite Epre, !List.map_app, <- !app_assoc. split.
        { intros acc. rewrite Hx, El. cbn [map_state]. now rewrite <- app_assoc. }
        cbn [List.filter]. rewrite Hs. cbn [List.flat_map].
        rewrite Hu, Hl'. reflexivity.
    + destruct (IH Hfull' Hpart' pre m post E Hpre Hm) as (l' & El & Hl').
      exists (x :: l'). split; [intros acc; now rewrite El|].
      cbn [List.filter]. now rewrite Hsel.
Qed.

End WriteEach.

(** The walk of [setParamVal<T>] with a first match that refuses. *)
Lemma walk_set_stops (v : Value) (segs : list string) :
  forall unrolled c pre m post,
    matching segs unrolled c = pre ++ m :: post ->
    (forall m', In m' pre -> accepts v (snd m') = true) ->
    accepts v (snd m) = false ->
    exists c',
      (forall ret,
         walk (set_action v) segs unrolled c ret
           = Throws (refusal v m) (c', ret ++ List.map fst pre))
      /\ matching segs unrolled c' = List.map (written v) pre ++ m :: post
      /\ itsInstanceName c' = itsInstanceName c.
Proof.
  induction segs as [|seg segs IH]; intros unrolled c pre m post E Hpre Hm.
  - destruct pre; discriminate.
  - cbn [walk matching] in *. destruct segs as [|seg' segs].
    + rewrite <- flat_map_singleton in E.
      destruct (act_on_each_stops (fun p => segment_matches seg (name p))
                  (fun p => [((unrolled +:+ name p)%string, p)])
                  (fun m => accepts v (snd m)) fst (written v) (refusal v)
                  (fun p => set_action v p (unrolled +:+ name p)%string)
                  (itsParameters c)) with (pre := pre) (m := m) (post := post)
        as (ps' & Eps & Hps); auto.
      * intros p _ Hsel Hok. exists (with_val v p). repeat split; [|exact Hsel].
        intros acc. apply set_action_accepts.
        apply (Hok ((unrolled +:+ name p)%string, p)). now left.
      * intros p _ Hsel pre0 m0 post0 E0 _ Hm0. exists p.
        destruct pre0 as [|? [|? ?]]; try discriminate.
        cbn [app] in E0. injection E0 as <- <-. repeat split; [|exact Hsel].
        intros acc. cbn [List.map]. rewrite app_nil_r.
        now apply set_action_refuses.
      * exists (set_params ps' c). split; [|split; [|destruct c; reflexivity]].
        -- intros ret. rewrite Eps. reflexivity.
        -- rewrite <- flat_map_singleton. destruct c; exact Hps.
    + destruct (act_on_each_stops (fun x => segment_matches seg (itsInstanceName x))
                  (fun x => matching (seg' :: segs)
                              (unrolled +:+ itsInstanceName x +:+ ":")%string x)
                  (fun m => accepts v (snd m)) fst (written v) (refusal v)
                  (fun x => walk (set_action v) (seg' :: segs)
                              (unrolled +:+ itsInstanceName x +:+ ":")%string x)
                  (itsSubComponents c)) with (pre := pre) (m := m) (post := post)
        as (subs' & Esubs & Hsubs); auto.
      * intros x _ Hsel Hok. exists (set_all v (seg' :: segs) x).
        rewrite set_all_instanceName. repeat split; [|apply matching_set_all|exact Hsel].
        intros acc. now apply walk_set_all.
      * intros x _ Hsel pre0 m0 post0 E0 Hpre0 Hm0.
        destruct (IH (unrolled +:+ itsInstanceName x +:+ ":")%string x pre0 m0 post0
                     E0 Hpre0 Hm0) as (x' & Ex' & Hx' & Hn).
        exists x'. rewrite Hn. repeat split; [exact Ex'|exact Hx'|exact Hsel].
      * exists (set_subs subs' c). split; [|split; [|destruct c; reflexivity]].
        -- intros ret. rewrite Esubs. reflexivity.
        -- destruct c; exact Hsubs.
Qed.

(** The ways [setParamVal] can end, by the first match that refuses. *)
Lemma setParamVal_cases (descriptor : string) (val : Value) (c : Component) :
  (matches descriptor c = []
   /\ setParamVal descriptor val c = Throws (NoParameterNamed descriptor) c)
  \/
  (matches descriptor c <> []
   /\ (forall m, In m (matches descriptor c) -> accepts val (snd m) = true)
   /\ setParamVal descriptor val c
      = Returns (List.map fst (matches descriptor c))
          (set_all val (segments descriptor) c))
  \/ exists pre m post c',
       matches descriptor c = pre ++ m :: post
       /\ (forall m', In m' pre -> accepts val (snd m') = true)
       /\ accepts val (snd m) = false
       /\ setParamVal descriptor val c = Throws (refusal val m) c'
       /\ matches descriptor c' = List.map (written val) pre ++ m :: post.
Proof.
  unfold setParamVal, findParamAndActOnIt, matches.
  destruct (matching (segments descriptor) "" c) as [|m0 ms0] eqn:Hms.
  { left. split; [reflexivity|].
    rewrite walk_no_match by exact Hms.
    rewrite bool_decide_eq_true_2 by reflexivity. reflexivity. }
  right. rewrite <- Hms.
  destruct (split_at_first_false (fun m => accepts val (snd m))
              (matching (segments descriptor) "" c))
    as [Hall|(pre & m & post & E & Hpre & Hm)].
  - left. split; [rewrite Hms; discriminate|]. split; [exact Hall|].
    rewrite walk_set_all by exact Hall. cbn [app].
    rewrite Hms. cbn [List.map].
    rewrite bool_decide_eq_false_2 by discriminate. reflexivity.
  - right. exists pre, m, post.
    destruct (walk_set_stops val (segments descriptor) "" c pre m post E Hpre Hm)
      as (c' & Hw & Hc' & _).
    exists c'. rewrite Hw. auto.
Qed.

(** X13: On a descriptor that matches something, setParamVal writes the
    matches in the order of the walk and stops at the first one that refuses
    the value. If none refuses, it returns the resolved descriptors of all
    matches, and each match holds the value. If one refuses, it throws the
    incorrect-type error (for a Parameter of another type) or the validation
    error of that match; the matches before it hold the new value, and that
    match and those after it are as before: nothing is rolled back. *)
Theorem setParamVal_writes_in_order (descriptor : string) (val : Value) (c : Component) :
  matches descriptor c <> [] ->
  ((forall m, In m (matches descriptor c) -> accepts val (snd m) = true)
   /\ exists c',
        setParamVal descriptor val c = Returns (List.map fst (matches descriptor c)) c'
        /\ matches descriptor c' = List.map (written val) (matches descriptor c))
  \/ exists pre m post c',
       matches descriptor c = pre ++ m :: post
       /\ (forall m', In m' pre -> accepts val (snd m') = true)
       /\ accepts val (snd m) = false
       /\ setParamVal descriptor val c = Throws (refusal val m) c'
       /\ matches descriptor c' = List.map (written val) pre ++ m :: post.
Proof.
  intros Hne.
  destruct (setParamVal_cases descriptor val c) as [(Hnil & _)|[(_ & Hall & E)|H]];
    [congruence|left|right; exact H].
  split; [exact Hall|]. exists (set_all val (segments descriptor) c).
  split; [exact E|]. apply matching_set_all.
Qed.

(** Scenario 1, where [cam:fps] takes 60, and scenario 2, where it refuses
    a string. *)
Lemma setParamVal_writes_in_order_witness :
  (((forall m, In m (matches "*:fps" root_cam_proc) -> accepts (VInt 60) (snd m) = true)
    /\ exists c',
         setParamVal "*:fps" (VInt 60) root_cam_proc
           = Returns (List.map fst (matches "*:fps" root_cam_proc)) c'
         /\ matches "*:fps" c' = List.map (written (VInt 60)) (matches "*:fps" root_cam_proc))
   \/ exists pre m post c',
        matches "*:fps" root_cam_proc = pre ++ m :: post
        /\ (forall m', In m' pre -> accepts (VInt 60) (snd m') = true)
        /\ accepts (VInt 60) (snd m) = false
        /\ setParamVal "*:fps" (VInt 60) root_cam_proc = Throws (refusal (VInt 60) m) c'
        /\ matches "*:fps" c' = List.map (written (VInt 60)) pre ++ m :: post)
  /\
  (((forall m, In m (matches "cam:fps" root_cam_proc) ->
       accepts (VString "fast") (snd m) = true)
    /\ exists c',
         setParamVal "cam:fps" (VString "fast") root_cam_proc
           = Returns (List.map fst (matches "cam:fps" root_cam_proc)) c'
         /\ matches "cam:fps" c'
            = List.map (written (VString "fast")) (matches "cam:fps" root_cam_proc))
   \/ exists pre m post c',
        matches "cam:fps" root_cam_proc = pre ++ m :: post
        /\ (forall m', In m' pre -> accepts (VString "fast") (snd m') = true)
        /\ accepts (VString "fast") (snd m) = false
        /\ setParamVal "cam:fps" (VString "fast") root_cam_proc
           = Throws (refusal (VString "fast") m) c'
        /\ matches "cam:fps" c' = List.map (written (VString "fast")) pre ++ m :: post).
Proof.
  split.
  - apply (setParamVal_writes_in_order "*:fps" (VInt 60) root_cam_proc). discriminate.
  - apply (setParamVal_writes_in_order "cam:fps" (VString "fast") root_cam_proc).
    discriminate.
Defined.

(** After [set_all] the matches are of the type of the value, and reading
    them gives the value. *)
Lemma getParamVal_after_set_all (descriptor : string) (val : Value) (c : Component) :
  matches descriptor c <> [] ->
  getParamVal (type_of val) descriptor (set_all val (segments descriptor) c)
  = Returns (List.map (fun m => (fst m, val)) (matches descriptor c))
      (set_all val (segments descriptor) c).
Proof.
  unfold getParamVal, findParamAndActOnIt, matches. intros Hne.
  destruct (walk_get (type_of val) (segments descriptor) ""
              (set_all val (segments descriptor) c) [])
    as [(_ & E)|(m & ret' & Hf & _)].
  - rewrite E. rewrite matching_set_all, List.map_map. cbn [app].
    destruct (matching (segments descriptor) "" c) as [|m ms]; [congruence|].
    cbn [List.map]. rewrite bool_decide_eq_false_2 by discriminate. reflexivity.
  - exfalso. apply find_some in Hf as [Hin Hbad].
    rewrite matching_set_all in Hin. apply in_map_iff in Hin as (m0 & <- & _).
    unfold has_type in Hbad. cbn [snd with_val itsVal] in Hbad.
    rewrite bool_decide_eq_true_2 in Hbad by reflexivity. discriminate.
Qed.

(** X14: What setParamVal has set, getParamVal reads back: after setParamVal
    has returned, getParamVal with the type of the value and the same
    descriptor returns, for every resolved descriptor that setParamVal
    listed, in the same order, the pair of that descriptor and the value. *)
Theorem getParamVal_after_setParamVal (descriptor : string) (val : Value)
    (c c' : Component) (ret : list string) :
  setParamVal descriptor val c = Returns ret c' ->
  getParamVal (type_of val) descriptor c'
  = Returns (List.map (fun unrolled => (unrolled, val)) ret) c'.
Proof.
  intros R.
  destruct (setParamVal_cases descriptor val c)
    as [(_ & E)|[(Hne & _ & E)|(pre & m & post & c'' & _ & _ & _ & E & _)]];
    rewrite E in R; try discriminate.
  injection R as <- <-.
  rewrite getParamVal_after_set_all by exact Hne. now rewrite List.map_map.
Qed.

(** Scenario 1: [setParamVal("*:fps", 60)] under a root with [cam] and
    [proc], then [getParamVal<int>("*:fps")]. *)
Lemma getParamVal_after_setParamVal_witness :
  getParamVal PInt "*:fps"
    (set_all (VInt 60) ["*"; "fps"]%string root_cam_proc)
  = Returns [("cam:fps"%string, VInt 60)]
      (set_all (VInt 60) ["*"; "fps"]%string root_cam_proc).
Proof.
  apply (getParamVal_after_setParamVal "*:fps" (VInt 60) root_cam_proc
           (set_all (VInt 60) ["*"; "fps"]%string root_cam_proc) ["cam:fps"%string]).
  reflexivity.
Defined.

(** X15: When setParamValUnique has returned on a descriptor that matches
    something, the descriptor matches exactly one Parameter, and
    getParamValUnique with the type of the value then returns the value. *)
Theorem getParamValUnique_after_setParamValUnique (descriptor : string) (val : Value)
    (c c' : Component) :
  setParamValUnique descriptor val c = Returns tt c' ->
  matches descriptor c <> [] ->
  length (matches descriptor c) = 1%nat
  /\ getParamValUnique (type_of val) descriptor c' = Returns val c'.
Proof.
  unfold setParamValUnique, getParamValUnique. intros R Hne.
  destruct (setParamVal_cases descriptor val c)
    as [(_ & E)|[(_ & _ & E)|(pre & m & post & c'' & _ & _ & _ & E & _)]];
    rewrite E in R; try discriminate.
  rewrite length_map in R.
  destruct (matches descriptor c) as [|m [|m' ms]] eqn:Hms;
    [congruence| |discriminate].
  cbn in R. injection R as <-.
  rewrite getParamVal_after_set_all by (rewrite Hms; discriminate).
  rewrite Hms. split; reflexivity.
Qed.

Lemma getParamValUnique_after_setParamValUnique_witness :
  length (matches "cam:fps" root_cam_proc) = 1%nat
  /\ getParamValUnique PInt "cam:fps"
       (set_all (VInt 60) ["cam"; "fps"]%string root_cam_proc)
     = Returns (VInt 60) (set_all (VInt 60) ["cam"; "fps"]%string root_cam_proc).
Proof.
  apply (getParamValUnique_after_setParamValUnique "cam:fps" (VInt 60) root_cam_proc).
  - reflexivity.
  - discriminate.
Defined.

(** X16: On a descriptor that matches something, getParamValUnique never
    changes the tree, and what it does is fixed by the matches: a match of
    another type gives the incorrect-type error of the first such match, even
    when there are several matches; otherwise one match gives its value and
    several give the multiple-match error. *)
Theorem getParamValUnique_outcomes (T : ParamType) (descriptor : string) (c : Component) :
  matches descriptor c <> [] ->
  getParamValUnique T descriptor c =
  match List.find (fun m => negb (has_type T m)) (matches descriptor c) with
  | Some m => Throws (IncorrectType (fst m)) c
  | None =>
      match matches descriptor c with
      | [m] => Returns (Param.get (snd m)) c
      | _ => Throws (MultipleMatches descriptor) c
      end
  end.
Proof.
  unfold getParamValUnique, getParamVal, findParamAndActOnIt, matches. intros Hne.
  destruct (walk_get T (segments descriptor) "" c []) as [(Hf & E)|(m & ret' & Hf & E)];
    rewrite Hf, E; [|reflexivity].
  cbn [app].
  destruct (matching (segments descriptor) "" c) as [|m [|m' ms]]; [congruence| |];
    cbn [List.map]; rewrite bool_decide_eq_false_2 by discriminate; reflexivity.
Qed.

(** Scenario 3: the one match of [a:log], the two matches of [*:log], and
    the two matches read as [int]. *)
Lemma getParamValUnique_outcomes_witness :
  getParamValUnique PBool "a:log" root_a_b = Returns (VBool true) root_a_b
  /\ getParamValUnique PBool "*:log" root_a_b = Throws (MultipleMatches "*:log") root_a_b
  /\ getParamValUnique PInt "*:log" root_a_b = Throws (IncorrectType "a:log") root_a_b.
Proof.
  split; [|split].
  - apply (getParamValUnique_outcomes PBool "a:log" root_a_b). discriminate.
  - apply (getParamValUnique_outcomes PBool "*:log" root_a_b). discriminate.
  - apply (getParamValUnique_outcomes PInt "*:log" root_a_b). discriminate.
Defined.

End ParamAccessFacts.

(** ** Serial.H: the declarations *)

Module SerialDeclFacts.
Import SerialEnums Param Serial.

(** X17: The seven Parameters that Serial.H declares have distinct names, and
    the default of each satisfies the constraint of its own declaration:
    115200 is one of the listed baud rates, 8N1 matches the format pattern,
    Sloppy and Plain are values of their enums. *)
Theorem declared_defaults_are_valid :
  NoDup (List.map name declared)
  /\ Forall (fun p => checkValueValidity (itsValidValuesSpec p) (Param.get p) = true)
       declared.
Proof.
  split.
  - apply (bool_decide_unpack _). vm_compute. exact I.
  - unfold declared. repeat (apply Forall_cons; split; [vm_compute; reflexivity|]).
    apply Forall_nil. exact I.
Qed.

End SerialDeclFacts.
